(** * go-data-structures: a FIFO queue and a set, verified against their Go source

    The two packages of the repository are embedded as executable Rocq
    definitions:

    - package [queue] (type [Queue[T any]]): the methods are state
      transformers on the receiver; every call also yields the list of calls it
      made to the caller's function and to [reflect], and may panic;
    - package [set] (type [Set[T comparable]]): the sets live in a store of
      heap objects addressed by pointers, each with its map and its
      [sync.RWMutex]; the methods are store transformers that may panic or
      block.  *)

From stdpp Require Import gmap strings list fin_maps.

(** ** Package queue *)

Module queue.

(** The runtime failures a queue method can run into. *)
Inductive panic : Type :=
| NilFuncCall        (* call of a nil func value *)
| IndexOutOfRange    (* s[i] with i >= len(s) *)
| SliceBounds.       (* s[i:] with i > len(s) *)

Inductive outcome (A : Type) : Type :=
| Returned (a : A)
| Panicked (p : panic).
Arguments Returned {A} a.
Arguments Panicked {A} p.

(** [fmt.Errorf] values: the formatted message. *)
Inductive error : Type := Errorf (msg : string).

Section queue.

Context {T : Type}.

(** [var t T]: the zero value of the element type. *)
Variable zero : T.
(** [reflect.ValueOf(x).Comparable()], a function of the standard library. *)
Variable reflect_Comparable : T -> bool.
(** What the verb [%T] prints for the zero value. *)
Variable type_name : string.
(** The growth policy of the runtime's [append]: the number of unused cells a
    new backing array gets beyond the ones needed, from the old capacity and
    the needed length. *)
Variable growslice_extra : nat -> nat -> nat.

(** What a method does besides changing the queue: the calls it makes to
    [reflect] and to the caller's [equalsFunc]. *)
Inductive event : Type :=
| EvComparable (v : T)
| EvEquals (a b : T).

(** *** Slices

    A slice is nil, or a window on a backing array.  [view behind cells room]
    is a window on an array that holds [behind ++ cells] followed by [room]
    unused cells: the window starts after [behind], its length is
    [length cells] and its capacity [length cells + room]. *)
Inductive slice : Type :=
| nil_slice
| view (behind cells : list T) (room : nat).

(** [make([]T, 0)] *)
Definition make0 : slice := view [] [] 0.

Definition len (s : slice) : nat :=
  match s with
  | nil_slice => 0
  | view _ cells _ => length cells
  end.

Definition cap (s : slice) : nat :=
  match s with
  | nil_slice => 0
  | view _ cells room => length cells + room
  end.

(** The elements a [range] over the slice visits, in order. *)
Definition to_list (s : slice) : list T :=
  match s with
  | nil_slice => []
  | view _ cells _ => cells
  end.

(** The values the slice's backing array keeps alive. *)
Definition retained (s : slice) : list T :=
  match s with
  | nil_slice => []
  | view behind cells _ => behind ++ cells
  end.

(** [s[i]] *)
Definition index (s : slice) (i : nat) : outcome T :=
  match to_list s !! i with
  | Some x => Returned x
  | None => Panicked IndexOutOfRange
  end.

(** [s[i:]] *)
Definition slice_from (s : slice) (i : nat) : outcome slice :=
  match s with
  | nil_slice => if i =? 0 then Returned nil_slice else Panicked SliceBounds
  | view behind cells room =>
      if i <=? length cells
      then Returned (view (behind ++ take i cells) (drop i cells) room)
      else Panicked SliceBounds
  end.

(** [append(s, x)]: in place when the capacity allows it, else into a new
    backing array, which leaves the old one behind. *)
Definition append (s : slice) (x : T) : slice :=
  match s with
  | nil_slice => view [] [x] (growslice_extra 0 1)
  | view behind cells (S room) => view behind (cells ++ [x]) room
  | view behind cells 0 =>
      view [] (cells ++ [x]) (growslice_extra (length cells) (S (length cells)))
  end.

(** *** The queue *)

Record Queue : Type := {
  elements : slice;
  preventDuplicates : bool;
  equalsFunc : option (T -> T -> bool)   (* None: the nil func *)
}.

Definition set_elements (s : slice) (q : Queue) : Queue :=
  {| elements := s;
     preventDuplicates := preventDuplicates q;
     equalsFunc := equalsFunc q |}.

Definition set_preventDuplicates (b : bool) (q : Queue) : Queue :=
  {| elements := elements q;
     preventDuplicates := b;
     equalsFunc := equalsFunc q |}.

Definition set_equalsFunc (f : option (T -> T -> bool)) (q : Queue) : Queue :=
  {| elements := elements q;
     preventDuplicates := preventDuplicates q;
     equalsFunc := f |}.

(** *** Methods as actions on the receiver

    An action runs on the receiver's state; it yields the calls it made and
    either a result with the new state, or a panic. *)
Definition Act (A : Type) : Type := Queue -> list event * outcome (A * Queue).

Definition ret {A} (a : A) : Act A := fun q => ([], Returned (a, q)).

Definition bind {A B} (m : Act A) (k : A -> Act B) : Act B := fun q =>
  match m q with
  | (tr, Returned (a, q')) =>
      match k a q' with
      | (tr', r) => (tr ++ tr', r)
      end
  | (tr, Panicked p) => (tr, Panicked p)
  end.

Definition get : Act Queue := fun q => ([], Returned (q, q)).
Definition modify (f : Queue -> Queue) : Act unit := fun q => ([], Returned (tt, f q)).
Definition emit (e : event) : Act unit := fun q => ([e], Returned (tt, q)).
Definition lift {A} (o : outcome A) : Act A := fun q =>
  match o with
  | Returned a => ([], Returned (a, q))
  | Panicked p => ([], Panicked p)
  end.


Notation "x <- m ;; k" := (bind m (fun x => k))
  (at level 100, m at next level, right associativity).
Notation "m ;; k" := (bind m (fun _ => k))
  (at level 100, right associativity).

(** [NewQueue]: [&Queue[T]{elements: make([]T, 0)}]; the other fields hold
    their zero values. *)
Definition NewQueue : Queue :=
  {| elements := make0; preventDuplicates := false; equalsFunc := None |}.

(** [Length] and [IsEmpty] *)
Definition Length : Act nat :=
  q <- get ;; ret (len (elements q)).

Definition IsEmpty : Act bool :=
  q <- get ;; ret (len (elements q) =? 0).

(** [PreventDuplicates]: the check is made on the zero value of [T]. *)
Definition PreventDuplicates (f : option (T -> T -> bool)) : Act (option error) :=
  let t := zero in
  emit (EvComparable t) ;;
  if negb (reflect_Comparable t)
  then ret (Some (Errorf ("type " +:+ type_name +:+ " is not comparable")))
  else
    modify (set_preventDuplicates true) ;;
    modify (set_equalsFunc f) ;;
    ret None.

(** [q.equalsFunc(a, b)] *)
Definition call_equalsFunc (a b : T) : Act bool :=
  q <- get ;;
  match equalsFunc q with
  | None => lift (Panicked NilFuncCall)
  | Some f => emit (EvEquals a b) ;; ret (f a b)
  end.

(** The loop of [Enqueue] over the elements [es] still to visit:
    [true] when it left the method through its [return]. *)
Fixpoint range_equals (element : T) (es : list T) : Act bool :=
  match es with
  | [] => ret false
  | e :: es' =>
      eq <- call_equalsFunc element e ;;
      if eq then ret true else range_equals element es'
  end.

Definition Enqueue (element : T) : Act unit :=
  q <- get ;;
  returned <- (if preventDuplicates q
               then range_equals element (to_list (elements q))
               else ret false) ;;
  if returned then ret tt
  else
    q <- get ;;
    modify (set_elements (append (elements q) element)).

Definition Dequeue : Act (T * bool) :=
  empty <- IsEmpty ;;
  if empty then ret (zero, false)
  else
    q <- get ;;
    element <- lift (index (elements q) 0) ;;
    n <- Length ;;
    if n =? 1 then
      modify (set_elements nil_slice) ;;
      ret (element, true)
    else
      q <- get ;;
      rest <- lift (slice_from (elements q) 1) ;;
      modify (set_elements rest) ;;
      ret (element, true).

Definition Peek : Act (T * bool) :=
  empty <- IsEmpty ;;
  if empty then ret (zero, false)
  else
    q <- get ;;
    element <- lift (index (elements q) 0) ;;
    ret (element, true).

(** *** Calls from outside the package *)

Inductive op : Type :=
| OpPreventDuplicates (f : option (T -> T -> bool))
| OpEnqueue (element : T)
| OpDequeue
| OpLength
| OpIsEmpty
| OpPeek.

(** What a call hands back, by the result types of the methods. *)
Inductive retval : Type :=
| RetNone
| RetError (err : option error)
| RetElem (v : T) (ok : bool)
| RetInt (n : nat)
| RetBool (b : bool).

Definition call (o : op) : Act retval :=
  match o with
  | OpPreventDuplicates f => err <- PreventDuplicates f ;; ret (RetError err)
  | OpEnqueue x => Enqueue x ;; ret RetNone
  | OpDequeue => r <- Dequeue ;; ret (RetElem (fst r) (snd r))
  | OpLength => n <- Length ;; ret (RetInt n)
  | OpIsEmpty => b <- IsEmpty ;; ret (RetBool b)
  | OpPeek => r <- Peek ;; ret (RetElem (fst r) (snd r))
  end.

Fixpoint calls (os : list op) : Act (list retval) :=
  match os with
  | [] => ret []
  | o :: os' =>
      r <- call o ;;
      rs <- calls os' ;;
      ret (r :: rs)
  end.

(** *** What the claims speak of *)

(** The elements the loop of [Enqueue] compares [x] with: all up to and
    including the first one that [f] finds equal. *)
Fixpoint scanned (f : T -> T -> bool) (x : T) (es : list T) : list T :=
  match es with
  | [] => []
  | e :: es' => e :: (if f x e then [] else scanned f x es')
  end.

(** No two elements at different positions are equivalent under [f]. *)
Definition inequivalent_pairs (f : T -> T -> bool) (l : list T) : Prop :=
  forall i j x y, i <> j -> l !! i = Some x -> l !! j = Some y -> f x y = false.

(** No element is found equal to an earlier one, in the order in which
    [Enqueue] passes the two to [f]. *)
Definition no_later_duplicate (f : T -> T -> bool) (l : list T) : Prop :=
  forall i j x y, i < j -> l !! i = Some x -> l !! j = Some y -> f y x = false.

(** Every call of [PreventDuplicates] in [os], run from [q], passes a func
    that is not nil, at a moment when the queue holds no element that this
    func finds equal to an earlier one. *)
Fixpoint clean_activations (os : list op) (q : Queue) : Prop :=
  match os with
  | [] => True
  | o :: os' =>
      match o with
      | OpPreventDuplicates g =>
          exists f, g = Some f /\ no_later_duplicate f (to_list (elements q))
      | _ => True
      end /\
      forall tr r q', call o q = (tr, Returned (r, q')) -> clean_activations os' q'
  end.

Definition is_EvEquals (e : event) : bool :=
  match e with EvEquals _ _ => true | EvComparable _ => false end.


(** Storage that holds nothing and has no capacity: the nil slice and
    [make([]T, 0)]. *)
Definition fresh_storage (s : slice) : Prop := s = nil_slice \/ s = make0.

(** Two queues that differ at most in which fresh storage they hold. *)
Definition similar (q1 q2 : Queue) : Prop :=
  preventDuplicates q1 = preventDuplicates q2 /\
  equalsFunc q1 = equalsFunc q2 /\
  (elements q1 = elements q2 \/
   (fresh_storage (elements q1) /\ fresh_storage (elements q2))).

(** C1 as the specification states it, for the calls [os] on a new queue:
    whenever duplicate suppression is on, no two elements are equivalent. *)
Definition suppressing_queue_has_no_equivalent_pair (os : list op) : Prop :=
  forall tr rs q f,
    calls os NewQueue = (tr, Returned (rs, q)) ->
    preventDuplicates q = true ->
    equalsFunc q = Some f ->
    inequivalent_pairs f (to_list (elements q)).

(** C9 as the specification states it: after the [Dequeue] of the last
    element the storage equals that of a new queue. *)
Definition drained_storage_is_new_storage (q : Queue) : Prop :=
  forall r q',
    len (elements q) = 1 ->
    Dequeue q = ([], Returned (r, q')) ->
    elements q' = elements NewQueue.

(** *** The methods in closed form *)

Lemma Length_eq q : Length q = ([], Returned (len (elements q), q)).
Proof. reflexivity. Qed.

Lemma IsEmpty_eq q : IsEmpty q = ([], Returned (len (elements q) =? 0, q)).
Proof. reflexivity. Qed.

Lemma len_to_list s : len s = length (to_list s).
Proof. by destruct s. Qed.

Lemma to_list_append s x : to_list (append s x) = to_list s ++ [x].
Proof. by destruct s as [|b c [|r]]. Qed.

Lemma PreventDuplicates_eq f q :
  PreventDuplicates f q =
  ([EvComparable zero],
   Returned
     (if reflect_Comparable zero
      then (None, set_equalsFunc f (set_preventDuplicates true q))
      else (Some (Errorf ("type " +:+ type_name +:+ " is not comparable")), q))).
Proof.
  unfold PreventDuplicates, bind. cbn.
  by destruct (reflect_Comparable zero).
Qed.

Lemma range_equals_Some f x es q :
  equalsFunc q = Some f ->
  range_equals x es q =
  (map (EvEquals x) (scanned f x es), Returned (existsb (f x) es, q)).
Proof.
  intros Hf. induction es as [|e es IH]; [done|].
  cbn. unfold bind at 1. unfold call_equalsFunc, bind at 1. cbn. rewrite Hf. cbn.
  destruct (f x e) eqn:He; cbn; [done|].
  by rewrite IH.
Qed.

Lemma range_equals_None x e es q :
  equalsFunc q = None ->
  range_equals x (e :: es) q = ([], Panicked NilFuncCall).
Proof.
  intros Hf. cbn. unfold bind at 1. unfold call_equalsFunc, bind at 1. cbn.
  by rewrite Hf.
Qed.

Lemma Enqueue_off x q :
  preventDuplicates q = false ->
  Enqueue x q = ([], Returned (tt, set_elements (append (elements q) x) q)).
Proof. intros Hp. unfold Enqueue, bind. cbn. by rewrite Hp. Qed.

Lemma Enqueue_on f x q :
  preventDuplicates q = true ->
  equalsFunc q = Some f ->
  Enqueue x q =
  (map (EvEquals x) (scanned f x (to_list (elements q))),
   Returned (tt, if existsb (f x) (to_list (elements q)) then q
                 else set_elements (append (elements q) x) q)).
Proof.
  intros Hp Hf. unfold Enqueue, bind at 1. cbn. rewrite Hp.
  unfold bind at 1. rewrite (range_equals_Some f) by done.
  destruct (existsb _ _); cbn; by rewrite app_nil_r.
Qed.

Lemma Enqueue_nil_func x q :
  preventDuplicates q = true ->
  equalsFunc q = None ->
  Enqueue x q =
  match to_list (elements q) with
  | [] => ([], Returned (tt, set_elements (append (elements q) x) q))
  | _ :: _ => ([], Panicked NilFuncCall)
  end.
Proof.
  intros Hp Hf. unfold Enqueue, bind at 1. cbn. rewrite Hp.
  unfold bind at 1. destruct (to_list (elements q)) as [|e es]; [done|].
  by rewrite range_equals_None.
Qed.

Lemma Dequeue_empty q :
  len (elements q) = 0 -> Dequeue q = ([], Returned ((zero, false), q)).
Proof. intros Hl. unfold Dequeue, bind. cbn. by rewrite Hl. Qed.

Lemma Dequeue_last b x r q :
  elements q = view b [x] r ->
  Dequeue q = ([], Returned ((x, true), set_elements nil_slice q)).
Proof. intros Hs. destruct q as [s p f]. cbn in Hs. by subst s. Qed.

Lemma Dequeue_more b x y l r q :
  elements q = view b (x :: y :: l) r ->
  Dequeue q = ([], Returned ((x, true), set_elements (view (b ++ [x]) (y :: l) r) q)).
Proof. intros Hs. destruct q as [s p f]. cbn in Hs. by subst s. Qed.

Lemma Peek_empty q :
  len (elements q) = 0 -> Peek q = ([], Returned ((zero, false), q)).
Proof. intros Hl. unfold Peek, bind. cbn. by rewrite Hl. Qed.

Lemma Peek_front x l q :
  to_list (elements q) = x :: l -> Peek q = ([], Returned ((x, true), q)).
Proof.
  intros Hs. unfold Peek, bind. cbn. rewrite len_to_list, Hs. cbn.
  unfold index. by rewrite Hs.
Qed.

(** [Dequeue] on a queue that holds [x :: l]: it hands out [x] and keeps [l]. *)
Lemma Dequeue_front x l q :
  to_list (elements q) = x :: l ->
  exists q', Dequeue q = ([], Returned ((x, true), q')) /\
             to_list (elements q') = l /\
             preventDuplicates q' = preventDuplicates q /\
             equalsFunc q' = equalsFunc q.
Proof.
  intros Hs. destruct (elements q) as [|b c r] eqn:He; [done|].
  cbn in Hs. subst c. destruct l as [|y l].
  - eexists. split; [exact (Dequeue_last _ _ _ _ He)|]. done.
  - eexists. split; [exact (Dequeue_more _ _ _ _ _ _ He)|]. done.
Qed.

Lemma scanned_no_match f x es :
  Forall (fun e => f x e = false) es -> scanned f x es = es /\ existsb (f x) es = false.
Proof.
  induction 1 as [|e es He _ [IH1 IH2]]; [done|].
  cbn. by rewrite He, IH1, IH2.
Qed.

Lemma scanned_first_match f x l1 e l2 :
  Forall (fun e' => f x e' = false) l1 -> f x e = true ->
  scanned f x (l1 ++ e :: l2) = l1 ++ [e] /\ existsb (f x) (l1 ++ e :: l2) = true.
Proof.
  intros Hl He. induction Hl as [|e' l1 He' _ [IH1 IH2]]; cbn.
  - by rewrite He.
  - by rewrite He', IH1, IH2.
Qed.

(** *** Sequences of calls *)

Lemma calls_cons o os q :
  calls (o :: os) q =
  match call o q with
  | (tr, Returned (r, q')) =>
      match calls os q' with
      | (tr', Returned (rs, q'')) => (tr ++ tr', Returned (r :: rs, q''))
      | (tr', Panicked p) => (tr ++ tr', Panicked p)
      end
  | (tr, Panicked p) => (tr, Panicked p)
  end.
Proof.
  cbn [calls]. unfold bind at 1. destruct (call o q) as [tr [[r q']|p]]; [|done].
  unfold bind. destruct (calls os q') as [tr' [[rs q'']|p]]; [|done].
  cbn. by rewrite app_nil_r.
Qed.

Lemma calls_app os1 os2 q :
  calls (os1 ++ os2) q =
  match calls os1 q with
  | (tr, Returned (rs, q')) =>
      match calls os2 q' with
      | (tr', Returned (rs', q'')) => (tr ++ tr', Returned (rs ++ rs', q''))
      | (tr', Panicked p) => (tr ++ tr', Panicked p)
      end
  | (tr, Panicked p) => (tr, Panicked p)
  end.
Proof.
  revert q. induction os1 as [|o os1 IH]; intros q.
  - cbn. by destruct (calls os2 q) as [tr' [[rs' q'']|p]].
  - rewrite <- app_comm_cons, !calls_cons.
    destruct (call o q) as [tr [[r q']|p]]; [|done].
    rewrite IH. destruct (calls os1 q') as [tr1 [[rs1 q1]|p]]; [|done].
    destruct (calls os2 q1) as [tr2 [[rs2 q2]|p]]; by rewrite app_assoc.
Qed.

Lemma call_Enqueue x q :
  call (OpEnqueue x) q =
  match Enqueue x q with
  | (tr, Returned (_, q')) => (tr, Returned (RetNone, q'))
  | (tr, Panicked p) => (tr, Panicked p)
  end.
Proof.
  unfold call. unfold bind at 1. destruct (Enqueue x q) as [tr [[[] q']|p]]; [|done].
  cbn. by rewrite app_nil_r.
Qed.

Lemma call_Dequeue q :
  call OpDequeue q =
  match Dequeue q with
  | (tr, Returned (r, q')) => (tr, Returned (RetElem (fst r) (snd r), q'))
  | (tr, Panicked p) => (tr, Panicked p)
  end.
Proof.
  unfold call. unfold bind at 1. destruct (Dequeue q) as [tr [[r q']|p]]; [|done].
  cbn. by rewrite app_nil_r.
Qed.

Lemma call_Peek q :
  call OpPeek q =
  match Peek q with
  | (tr, Returned (r, q')) => (tr, Returned (RetElem (fst r) (snd r), q'))
  | (tr, Panicked p) => (tr, Panicked p)
  end.
Proof.
  unfold call. unfold bind at 1. destruct (Peek q) as [tr [[r q']|p]]; [|done].
  cbn. by rewrite app_nil_r.
Qed.

Lemma call_PreventDuplicates f q :
  call (OpPreventDuplicates f) q =
  ([EvComparable zero],
   Returned
     (if reflect_Comparable zero
      then (RetError None, set_equalsFunc f (set_preventDuplicates true q))
      else (RetError (Some (Errorf ("type " +:+ type_name +:+ " is not comparable"))), q))).
Proof.
  unfold call. unfold bind at 1. rewrite PreventDuplicates_eq.
  by destruct (reflect_Comparable zero).
Qed.

Lemma call_Length q : call OpLength q = ([], Returned (RetInt (len (elements q)), q)).
Proof. reflexivity. Qed.

Lemma call_IsEmpty q :
  call OpIsEmpty q = ([], Returned (RetBool (len (elements q) =? 0), q)).
Proof. reflexivity. Qed.

(** Without duplicate suppression a run of [Enqueue] calls appends its
    arguments in order. *)
Lemma calls_Enqueue_off vs q :
  preventDuplicates q = false ->
  exists q', calls (map OpEnqueue vs) q = ([], Returned (map (fun _ => RetNone) vs, q')) /\
             to_list (elements q') = to_list (elements q) ++ vs /\
             preventDuplicates q' = false.
Proof.
  revert q. induction vs as [|v vs IH]; intros q Hp.
  - exists q. by rewrite app_nil_r.
  - destruct (IH (set_elements (append (elements q) v) q) Hp) as (q' & Hc & Hl & Hp').
    exists q'. cbn [map]. rewrite calls_cons, call_Enqueue, Enqueue_off, Hc by done.
    split; [done|]. split; [|done].
    rewrite Hl. cbn. by rewrite to_list_append, <- app_assoc.
Qed.

(** A run of [Dequeue] calls hands out the front elements in order. *)
Lemma calls_Dequeue vs rest q :
  to_list (elements q) = vs ++ rest ->
  exists q', calls (repeat OpDequeue (length vs)) q =
               ([], Returned (map (fun v => RetElem v true) vs, q')) /\
             to_list (elements q') = rest.
Proof.
  revert q. induction vs as [|v vs IH]; intros q Hl.
  - by exists q.
  - destruct (Dequeue_front v (vs ++ rest) q Hl) as (q1 & Hd & Hl1 & _).
    destruct (IH q1 Hl1) as (q' & Hc & Hl').
    exists q'. cbn [length repeat map]. by rewrite calls_cons, call_Dequeue, Hd, Hc.
Qed.

Lemma Peek_unchanged q : exists r, Peek q = ([], Returned (r, q)).
Proof.
  destruct (to_list (elements q)) as [|x l] eqn:Hs.
  - exists (zero, false). apply Peek_empty. by rewrite len_to_list, Hs.
  - exists (x, true). by eapply Peek_front.
Qed.

Lemma Dequeue_returns q :
  exists r q', Dequeue q = ([], Returned (r, q')) /\
               preventDuplicates q' = preventDuplicates q /\
               equalsFunc q' = equalsFunc q /\
               (to_list (elements q) = [] /\ q' = q \/
                exists x, to_list (elements q) = x :: to_list (elements q')).
Proof.
  destruct (to_list (elements q)) as [|x l] eqn:Hs.
  - exists (zero, false), q. rewrite Dequeue_empty by (by rewrite len_to_list, Hs).
    repeat split; by left.
  - destruct (Dequeue_front x l q Hs) as (q' & Hd & Hl & Hp & Hf).
    exists (x, true), q'. rewrite Hl. repeat split; [done..|]. right. by exists x.
Qed.

(** *** Duplicates *)

Lemma existsb_false_Forall (f : T -> bool) l :
  existsb f l = false -> Forall (fun e => f e = false) l.
Proof.
  induction l as [|e l IH]; cbn; [done|].
  intros [He Hl]%orb_false_iff. by constructor; auto.
Qed.

Lemma no_later_duplicate_snoc f l x :
  no_later_duplicate f l -> Forall (fun e => f x e = false) l ->
  no_later_duplicate f (l ++ [x]).
Proof.
  intros Hl Hx i j a b Hij Hi Hj.
  assert (j < length (l ++ [x])) as Hlen by (by eapply lookup_lt_Some).
  rewrite length_app in Hlen. cbn in Hlen.
  rewrite lookup_app_l in Hi by lia.
  destruct (decide (j < length l)) as [Hlt|Hge].
  - rewrite lookup_app_l in Hj by lia. by apply (Hl i j).
  - rewrite lookup_app_r in Hj by lia.
    replace (j - length l) with 0 in Hj by lia. cbn in Hj.
    injection Hj as <-. rewrite Forall_forall in Hx. apply Hx.
    by eapply list_elem_of_lookup_2.
Qed.

Lemma no_later_duplicate_nil f : no_later_duplicate f [].
Proof. intros i j x y _ Hi. by rewrite lookup_nil in Hi. Qed.

Lemma no_later_duplicate_tail f x l :
  no_later_duplicate f (x :: l) -> no_later_duplicate f l.
Proof.
  intros Hl i j a b Hij Hi Hj.
  apply (Hl (S i) (S j)); [lia|done..].
Qed.

Lemma no_later_duplicate_symmetric f l :
  no_later_duplicate f l -> (forall a b, f a b = f b a) -> inequivalent_pairs f l.
Proof.
  intros Hl Hsym i j a b Hij Hi Hj.
  destruct (decide (i < j)).
  - rewrite Hsym. by apply (Hl i j).
  - eapply (Hl j i); [lia|done..].
Qed.

(** The invariant of duplicate suppression. *)
Definition suppressing (q : Queue) : Prop :=
  preventDuplicates q = true ->
  exists f, equalsFunc q = Some f /\ no_later_duplicate f (to_list (elements q)).

Lemma Enqueue_suppressing x q :
  suppressing q ->
  exists tr q', Enqueue x q = (tr, Returned (tt, q')) /\ suppressing q'.
Proof.
  intros Hq. destruct (preventDuplicates q) eqn:Hp.
  - destruct (Hq Hp) as (f & Hf & Hl).
    rewrite (Enqueue_on f) by done.
    destruct (existsb (f x) (to_list (elements q))) eqn:He.
    + by eexists _, _.
    + eexists _, _. split; [done|]. intros _. exists f. split; [done|].
      cbn. rewrite to_list_append.
      by apply no_later_duplicate_snoc, existsb_false_Forall.
  - rewrite Enqueue_off by done. eexists _, _. split; [done|].
    intros Hp'. cbn in Hp'. congruence.
Qed.

Lemma Dequeue_suppressing q :
  suppressing q ->
  exists r q', Dequeue q = ([], Returned (r, q')) /\ suppressing q'.
Proof.
  intros Hq. destruct (Dequeue_returns q) as (r & q' & Hd & Hp & Hf & Hl).
  exists r, q'. split; [done|]. intros Hp'. rewrite Hp in Hp'.
  destruct (Hq Hp') as (f & Hf' & Hno). exists f. rewrite Hf. split; [done|].
  destruct Hl as [[_ ->]|[x Hx]]; [done|].
  rewrite Hx in Hno. by apply (no_later_duplicate_tail f x).
Qed.

Lemma call_suppressing o q :
  suppressing q ->
  match o with
  | OpPreventDuplicates g =>
      exists f, g = Some f /\ no_later_duplicate f (to_list (elements q))
  | _ => True
  end ->
  exists tr r q', call o q = (tr, Returned (r, q')) /\ suppressing q'.
Proof.
  intros Hq Ho. destruct o as [g|x| | | |].
  - destruct Ho as (f & -> & Hl). rewrite call_PreventDuplicates.
    destruct (reflect_Comparable zero).
    + eexists _, _, _. split; [done|]. intros _. by exists f.
    + by eexists _, _, _.
  - destruct (Enqueue_suppressing x q Hq) as (tr & q' & He & Hq').
    rewrite call_Enqueue, He. by eexists _, _, _.
  - destruct (Dequeue_suppressing q Hq) as (r & q' & Hd & Hq').
    rewrite call_Dequeue, Hd. by eexists _, _, _.
  - rewrite call_Length. by eexists _, _, _.
  - rewrite call_IsEmpty. by eexists _, _, _.
  - destruct (Peek_unchanged q) as (r & Hr).
    rewrite call_Peek, Hr. by eexists _, _, _.
Qed.

Lemma calls_suppressing os q :
  suppressing q -> clean_activations os q ->
  exists tr rs q', calls os q = (tr, Returned (rs, q')) /\ suppressing q'.
Proof.
  revert q. induction os as [|o os IH]; intros q Hq Hos.
  - by exists [], [], q.
  - destruct Hos as [Ho Hos].
    destruct (call_suppressing o q Hq Ho) as (tr & r & q1 & Hc & Hq1).
    destruct (IH q1 Hq1 (Hos _ _ _ Hc)) as (tr' & rs & q' & Hcs & Hq').
    rewrite calls_cons, Hc, Hcs. by eexists _, _, _.
Qed.

(** *** The claims on [Enqueue], [Dequeue] and [Peek] *)

(** C4: with duplicate suppression active, [Enqueue x] compares [x] with the
    elements from the front on.  If none is equivalent to [x], all were
    compared and [x] is appended at the back.  If one is, the comparisons stop
    at the first such element and the queue is left as it was.  In particular,
    two elements with the same value of a field, enqueued into a new queue that
    suppresses duplicates by that field, leave a queue of length 1. *)
Theorem Enqueue_suppresses_duplicates :
  (forall (q : Queue) (f : T -> T -> bool) (x : T),
      preventDuplicates q = true ->
      equalsFunc q = Some f ->
      (Forall (fun e => f x e = false) (to_list (elements q)) ->
       exists q',
         Enqueue x q = (map (EvEquals x) (to_list (elements q)), Returned (tt, q')) /\
         q' = set_elements (append (elements q) x) q /\
         to_list (elements q') = to_list (elements q) ++ [x]) /\
      (forall l1 e l2,
          to_list (elements q) = l1 ++ e :: l2 ->
          Forall (fun e' => f x e' = false) l1 ->
          f x e = true ->
          Enqueue x q = (map (EvEquals x) (l1 ++ [e]), Returned (tt, q)))) /\
  (forall (K : Type) (K_eq : EqDecision K) (field : T -> K) (a b : T),
      reflect_Comparable zero = true ->
      field a = field b ->
      exists tr q',
        calls [OpPreventDuplicates (Some (fun u v => bool_decide (field u = field v)));
               OpEnqueue a; OpEnqueue b; OpLength] NewQueue =
        (tr, Returned ([RetError None; RetNone; RetNone; RetInt 1], q'))).
Proof.
  split.
  - intros q f x Hp Hf. split.
    + intros Hno. destruct (scanned_no_match f x _ Hno) as [Hs He].
      eexists. rewrite (Enqueue_on f), Hs, He by done.
      split; [done|]. split; [done|]. cbn. apply to_list_append.
    + intros l1 e l2 Hl Hno He.
      destruct (scanned_first_match f x l1 e l2 Hno He) as [Hs Hx].
      by rewrite (Enqueue_on f), Hl, Hs, Hx.
  - intros K K_eq field a b Hc Hab.
    set (f := fun u v => bool_decide (field u = field v)).
    rewrite calls_cons, call_PreventDuplicates, Hc.
    rewrite calls_cons, call_Enqueue, (Enqueue_on f) by done. cbn -[calls].
    rewrite calls_cons, call_Enqueue, (Enqueue_on f) by done. cbn -[calls].
    unfold f at 1 2. rewrite !bool_decide_true by done. cbn.
    by eexists _, _.
Qed.

(** C5: after [Enqueue(v1)], ..., [Enqueue(vn)] on a new queue, without
    duplicate suppression, the next n calls of [Dequeue] return [(v1, true)],
    ..., [(vn, true)] in this order, and they empty the queue. *)
Theorem Dequeue_returns_in_Enqueue_order (vs : list T) :
  exists q,
    calls (map OpEnqueue vs ++ repeat OpDequeue (length vs)) NewQueue =
    ([], Returned (map (fun _ => RetNone) vs ++ map (fun v => RetElem v true) vs, q)) /\
    to_list (elements q) = [].
Proof.
  destruct (calls_Enqueue_off vs NewQueue eq_refl) as (q1 & Hc1 & Hl1 & _).
  cbn in Hl1.
  destruct (calls_Dequeue vs [] q1) as (q2 & Hc2 & Hl2); [by rewrite app_nil_r|].
  exists q2. by rewrite calls_app, Hc1, Hc2.
Qed.

(** C7: on an empty queue [Dequeue] and [Peek] both return the zero value
    and [false], without a panic; and on every queue [Peek] returns and leaves
    the queue as it was. *)
Theorem Dequeue_Peek_on_empty (q : Queue) :
  (len (elements q) = 0 ->
   Dequeue q = ([], Returned ((zero, false), q)) /\
   Peek q = ([], Returned ((zero, false), q))) /\
  (exists r, Peek q = ([], Returned (r, q))).
Proof.
  split.
  - intros Hl. by rewrite Dequeue_empty, Peek_empty.
  - apply Peek_unchanged.
Qed.

(** *** The claims on duplicate suppression *)

(** C1, as amended: take any sequence of calls on a new queue in which every
    call of [PreventDuplicates] passes a func that is not nil, at a moment
    when the queue holds no element that this func finds equal to an earlier
    one (so, for one, when the queue is empty).  Then no call panics, and
    whenever duplicate suppression is on at the end, the queue holds no
    element that the registered func finds equal to an earlier one; when that
    func is symmetric, no two elements at different positions are
    equivalent. *)
Theorem suppression_keeps_elements_inequivalent (os : list op) :
  clean_activations os NewQueue ->
  exists tr rs q,
    calls os NewQueue = (tr, Returned (rs, q)) /\
    (preventDuplicates q = true ->
     exists f, equalsFunc q = Some f /\
               no_later_duplicate f (to_list (elements q)) /\
               ((forall a b, f a b = f b a) ->
                inequivalent_pairs f (to_list (elements q)))).
Proof.
  intros Hos.
  destruct (calls_suppressing os NewQueue) as (tr & rs & q & Hc & Hq); [done..|].
  exists tr, rs, q. split; [done|]. intros Hp.
  destruct (Hq Hp) as (f & Hf & Hl). exists f.
  split; [done|]. split; [done|]. by apply no_later_duplicate_symmetric.
Qed.

(** *** A queue whose element type fails the check *)

Lemma call_not_activated o q :
  reflect_Comparable zero = false ->
  preventDuplicates q = false ->
  exists tr r q',
    call o q = (tr, Returned (r, q')) /\
    Forall (fun ev => is_EvEquals ev = false) tr /\
    preventDuplicates q' = false /\
    equalsFunc q' = equalsFunc q.
Proof.
  intros Hc Hp. destruct o as [g|x| | | |].
  - rewrite call_PreventDuplicates, Hc. eexists _, _, _.
    split; [done|]. split; [|done]. by repeat constructor.
  - rewrite call_Enqueue, Enqueue_off by done. by eexists _, _, _.
  - destruct (Dequeue_returns q) as (r & q' & Hd & Hp' & Hf & _).
    rewrite call_Dequeue, Hd. eexists _, _, _. split; [done|].
    split; [done|]. by rewrite Hp'.
  - rewrite call_Length. by eexists _, _, _.
  - rewrite call_IsEmpty. by eexists _, _, _.
  - destruct (Peek_unchanged q) as (r & Hr).
    rewrite call_Peek, Hr. by eexists _, _, _.
Qed.

Lemma calls_not_activated os q :
  reflect_Comparable zero = false ->
  preventDuplicates q = false ->
  exists tr rs q',
    calls os q = (tr, Returned (rs, q')) /\
    Forall (fun ev => is_EvEquals ev = false) tr /\
    preventDuplicates q' = false /\
    equalsFunc q' = equalsFunc q.
Proof.
  intros Hc. revert q. induction os as [|o os IH]; intros q Hp.
  - by exists [], [], q.
  - destruct (call_not_activated o q Hc Hp) as (tr & r & q1 & Ho & Htr & Hp1 & Hf1).
    destruct (IH q1 Hp1) as (tr' & rs & q' & Hos & Htr' & Hp' & Hf').
    rewrite calls_cons, Ho, Hos. eexists _, _, _. split; [done|].
    split; [by apply Forall_app|]. split; [done|]. congruence.
Qed.

(** C10: when [PreventDuplicates] returns an error on a queue obtained from
    [NewQueue] by calls of the methods, the queue is left as it was, with
    duplicate suppression off and no func stored; and after any further calls,
    none of which panics or calls the func, [Enqueue] appends its element
    without a call to the func. *)
Theorem failed_PreventDuplicates_changes_nothing
    (os : list op) (f : option (T -> T -> bool))
    (tr : list event) (rs : list retval) (q : Queue)
    (tr' : list event) (e : error) (q' : Queue) :
  calls os NewQueue = (tr, Returned (rs, q)) ->
  PreventDuplicates f q = (tr', Returned (Some e, q')) ->
  q' = q /\
  preventDuplicates q' = false /\
  equalsFunc q' = None /\
  forall os', exists tr'' rs' q'',
    calls os' q' = (tr'', Returned (rs', q'')) /\
    Forall (fun ev => is_EvEquals ev = false) tr'' /\
    preventDuplicates q'' = false /\
    equalsFunc q'' = None /\
    forall x, Enqueue x q'' =
              ([], Returned (tt, set_elements (append (elements q'') x) q'')).
Proof.
  intros Hos Hpd. rewrite PreventDuplicates_eq in Hpd.
  destruct (reflect_Comparable zero) eqn:Hc; [done|].
  injection Hpd as _ _ <-.
  destruct (calls_not_activated os NewQueue Hc eq_refl)
    as (tr0 & rs0 & q0 & Hos0 & _ & Hp & Hf).
  rewrite Hos in Hos0. injection Hos0 as _ _ <-. cbn in Hf.
  split; [done|]. split; [done|]. split; [done|].
  intros os'.
  destruct (calls_not_activated os' q Hc Hp) as (tr1 & rs1 & q1 & Hos1 & Htr1 & Hp1 & Hf1).
  exists tr1, rs1, q1. split; [done|]. split; [done|]. split; [done|].
  split; [congruence|]. intros x. by apply Enqueue_off.
Qed.

(** *** Storage after the last element is gone *)

(** Two runs that made the same calls and ended alike. *)
Definition same_behaviour {A} (r1 r2 : list event * outcome (A * Queue)) : Prop :=
  fst r1 = fst r2 /\
  match snd r1, snd r2 with
  | Returned (a1, q1), Returned (a2, q2) => a1 = a2 /\ similar q1 q2
  | Panicked p1, Panicked p2 => p1 = p2
  | _, _ => False
  end.

Lemma similar_refl q : similar q q.
Proof. repeat split. by left. Qed.

Lemma similar_to_list q1 q2 :
  similar q1 q2 -> to_list (elements q1) = to_list (elements q2).
Proof.
  intros (_ & _ & [->|[[-> | ->] [-> | ->]]]); done.
Qed.

Lemma similar_append q1 q2 x :
  similar q1 q2 ->
  similar (set_elements (append (elements q1) x) q1)
          (set_elements (append (elements q2) x) q2).
Proof.
  intros (Hp & Hf & Hs). repeat split; [done..|]. cbn. left.
  destruct Hs as [->|[[-> | ->] [-> | ->]]]; done.
Qed.

Lemma Enqueue_similar x q1 q2 :
  similar q1 q2 -> same_behaviour (Enqueue x q1) (Enqueue x q2).
Proof.
  intros Hq. pose proof Hq as (Hp & Hf & _).
  pose proof (similar_to_list _ _ Hq) as Hl.
  destruct (preventDuplicates q1) eqn:Hp1; symmetry in Hp.
  - destruct (equalsFunc q1) as [f|] eqn:Hf1; symmetry in Hf.
    + rewrite !(Enqueue_on f), Hl by done.
      destruct (existsb _ _); (split; [done|]); cbn; split; [done| |done|]; try done.
      by apply similar_append.
    + rewrite !Enqueue_nil_func, Hl by done.
      destruct (to_list (elements q2)) as [|e es]; [|done].
      split; [done|]. cbn. split; [done|]. by apply similar_append.
  - rewrite !Enqueue_off by done. split; [done|]. cbn. split; [done|].
    by apply similar_append.
Qed.

Lemma Dequeue_similar q1 q2 :
  similar q1 q2 -> same_behaviour (Dequeue q1) (Dequeue q2).
Proof.
  intros (Hp & Hf & Hs).
  destruct Hs as [Hs|[H1 H2]].
  - destruct q1 as [s1 p1 f1], q2 as [s2 p2 f2]. cbn in Hp, Hf, Hs. subst.
    destruct (Dequeue_returns {| elements := s2; preventDuplicates := p2; equalsFunc := f2 |})
      as (r & q' & -> & _). split; [done|]. cbn. split; [done|]. apply similar_refl.
  - assert (len (elements q1) = 0) as Hl1 by (by destruct H1 as [-> | ->]).
    assert (len (elements q2) = 0) as Hl2 by (by destruct H2 as [-> | ->]).
    rewrite !Dequeue_empty by done.
    split; [done|]. cbn. split; [done|]. repeat split; [done..|]. by right.
Qed.

Lemma Peek_similar q1 q2 :
  similar q1 q2 -> same_behaviour (Peek q1) (Peek q2).
Proof.
  intros Hq. pose proof (similar_to_list _ _ Hq) as Hl.
  destruct (to_list (elements q2)) as [|x l] eqn:Hl2.
  - rewrite !Peek_empty by (by rewrite len_to_list, ?Hl, ?Hl2). by split.
  - rewrite !(Peek_front x l) by done. by split.
Qed.

Lemma call_similar o q1 q2 :
  similar q1 q2 -> same_behaviour (call o q1) (call o q2).
Proof.
  intros Hq. pose proof (similar_to_list _ _ Hq) as Hl.
  destruct o as [g|x| | | |].
  - rewrite !call_PreventDuplicates. split; [done|]. cbn.
    destruct (reflect_Comparable zero); (split; [done|]); [|done].
    destruct Hq as (Hp & Hf & Hs). by repeat split.
  - rewrite !call_Enqueue. destruct (Enqueue_similar x q1 q2 Hq) as [Ht Hr].
    destruct (Enqueue x q1) as [t1 [[[] a1]|p1]], (Enqueue x q2) as [t2 [[[] a2]|p2]];
      cbn in *; try done. split; [done|]. cbn. by destruct Hr.
  - rewrite !call_Dequeue. destruct (Dequeue_similar q1 q2 Hq) as [Ht Hr].
    destruct (Dequeue q1) as [t1 [[r1 a1]|p1]], (Dequeue q2) as [t2 [[r2 a2]|p2]];
      cbn in *; try done. split; [done|]. cbn. destruct Hr as [-> Hr]. by split.
  - rewrite !call_Length, !len_to_list, Hl. by split.
  - rewrite !call_IsEmpty, !len_to_list, Hl. by split.
  - rewrite !call_Peek. destruct (Peek_similar q1 q2 Hq) as [Ht Hr].
    destruct (Peek q1) as [t1 [[r1 a1]|p1]], (Peek q2) as [t2 [[r2 a2]|p2]];
      cbn in *; try done. split; [done|]. cbn. destruct Hr as [-> Hr]. by split.
Qed.

Lemma calls_similar os q1 q2 :
  similar q1 q2 -> same_behaviour (calls os q1) (calls os q2).
Proof.
  revert q1 q2. induction os as [|o os IH]; intros q1 q2 Hq.
  - by split.
  - rewrite !calls_cons. destruct (call_similar o q1 q2 Hq) as [Ht Hr].
    destruct (call o q1) as [t1 [[r1 a1]|p1]], (call o q2) as [t2 [[r2 a2]|p2]];
      cbn in Ht, Hr; try done; try (by subst).
    destruct Hr as [-> Ha]. subst t2. destruct (IH a1 a2 Ha) as [Ht' Hr'].
    destruct (calls os a1) as [t1' [[rs1 b1]|p1]], (calls os a2) as [t2' [[rs2 b2]|p2]];
      cbn in Ht', Hr'; try done; subst t2'; try (by subst).
    destruct Hr' as [-> Hb]. by split.
Qed.

(** C9, as amended: when [Dequeue] removes the last remaining element, the
    queue's storage becomes the nil slice: no length, no capacity and no
    backing array, so that no dequeued element is kept alive, where the
    truncated view [q.elements[1:]] would still keep the element.  The nil
    slice is another value than the [make([]T, 0)] of a new queue, but every
    sequence of calls behaves on it as on that storage. *)
Theorem Dequeue_of_last_element_resets_storage (q : Queue) :
  len (elements q) = 1 ->
  exists x q',
    to_list (elements q) = [x] /\
    Dequeue q = ([], Returned ((x, true), q')) /\
    q' = set_elements nil_slice q /\
    len (elements q') = 0 /\ cap (elements q') = 0 /\ retained (elements q') = [] /\
    (exists s, slice_from (elements q) 1 = Returned s /\ len s = 0 /\ x ∈ retained s) /\
    (forall os,
        same_behaviour (calls os q') (calls os (set_elements (elements NewQueue) q))).
Proof.
  intros Hl. destruct (elements q) as [|b [|x [|y c]] r] eqn:Hs; try done.
  exists x, (set_elements nil_slice q).
  split; [done|]. split; [by eapply Dequeue_last|]. do 4 (split; [done|]). split.
  - eexists. split; [done|]. split; [done|]. cbn. set_solver.
  - intros os. apply calls_similar. repeat split; [done..|].
    right. split; [by left | by right].
Qed.

(** *** Where the check and the error occur *)




(** *** Further properties of the methods *)

(** X1: on every queue [Dequeue] returns what [Peek] shows, and [Peek]
    changes nothing.  On a queue with elements this is the front element with
    [true], and [Dequeue] keeps the others in their order; on an empty one it
    is the zero value with [false], and [Dequeue] changes nothing either.
    Neither calls the func or changes the flag. *)
Theorem Dequeue_returns_what_Peek_shows (q : Queue) :
  exists r q',
    Peek q = ([], Returned (r, q)) /\
    Dequeue q = ([], Returned (r, q')) /\
    preventDuplicates q' = preventDuplicates q /\
    equalsFunc q' = equalsFunc q /\
    match to_list (elements q) with
    | [] => r = (zero, false) /\ q' = q
    | x :: l => r = (x, true) /\ to_list (elements q') = l
    end.
Proof.
  destruct (to_list (elements q)) as [|x l] eqn:Hl.
  - exists (zero, false), q.
    rewrite Peek_empty, Dequeue_empty by (by rewrite len_to_list, Hl). done.
  - destruct (Dequeue_front x l q Hl) as (q' & Hd & Hl' & Hp & Hf).
    exists (x, true), q'. by rewrite (Peek_front x l).
Qed.

(** X2: with duplicate suppression on and a func that finds [x] equal to
    itself, a second [Enqueue(x)] changes nothing: the queue after two calls
    is the queue after one. *)
Theorem Enqueue_again_changes_nothing (q : Queue) (f : T -> T -> bool) (x : T) :
  preventDuplicates q = true ->
  equalsFunc q = Some f ->
  f x x = true ->
  exists tr q1 tr',
    Enqueue x q = (tr, Returned (tt, q1)) /\
    Enqueue x q1 = (tr', Returned (tt, q1)).
Proof.
  intros Hp Hf Hx. rewrite (Enqueue_on f) by done.
  destruct (existsb (f x) (to_list (elements q))) eqn:He.
  - eexists _, q, _. split; [done|]. by rewrite (Enqueue_on f), He.
  - eexists _, _, _. split; [done|].
    rewrite (Enqueue_on f) by done. cbn [elements set_elements].
    rewrite to_list_append, existsb_app. cbn. by rewrite Hx, orb_true_r.
Qed.

Lemma call_keeps_suppression o q tr r q' :
  preventDuplicates q = true ->
  call o q = (tr, Returned (r, q')) ->
  preventDuplicates q' = true.
Proof.
  intros Hp. destruct o as [g|x| | | |].
  - rewrite call_PreventDuplicates.
    destruct (reflect_Comparable zero); by intros [= _ _ <-].
  - rewrite call_Enqueue. destruct (equalsFunc q) as [f|] eqn:Hf.
    + rewrite (Enqueue_on f) by done.
      destruct (existsb _ _); by intros [= _ _ <-].
    + rewrite Enqueue_nil_func by done.
      destruct (to_list (elements q)); [|done]. by intros [= _ _ <-].
  - destruct (Dequeue_returns q) as (r0 & q0 & Hd & Hp0 & _).
    rewrite call_Dequeue, Hd. intros [= _ _ <-]. congruence.
  - rewrite call_Length. by intros [= _ _ <-].
  - rewrite call_IsEmpty. by intros [= _ _ <-].
  - destruct (Peek_unchanged q) as (r0 & Hr). rewrite call_Peek, Hr.
    by intros [= _ _ <-].
Qed.

(** X3: no method switches duplicate suppression off: on a queue that has it
    on, it is still on after any calls that return. *)
Theorem suppression_is_never_switched_off
    (os : list op) (q : Queue) (tr : list event) (rs : list retval) (q' : Queue) :
  preventDuplicates q = true ->
  calls os q = (tr, Returned (rs, q')) ->
  preventDuplicates q' = true.
Proof.
  revert q tr rs. induction os as [|o os IH]; intros q tr rs Hp.
  - by intros [= _ _ <-].
  - rewrite calls_cons. destruct (call o q) as [tr1 [[r1 q1]|p]] eqn:Ho; [|done].
    destruct (calls os q1) as [tr2 [[rs2 q2]|p]] eqn:Hos; [|done].
    intros [= _ _ <-]. eapply IH; [|exact Hos].
    by eapply call_keeps_suppression.
Qed.

(** X4: with duplicate suppression on and the nil func stored, as after
    [PreventDuplicates(nil)], [Enqueue] appends to an empty queue without a
    call, and panics on a queue that holds an element, before any change. *)
Theorem Enqueue_with_nil_func (q : Queue) (x : T) :
  preventDuplicates q = true ->
  equalsFunc q = None ->
  (len (elements q) = 0 ->
   Enqueue x q = ([], Returned (tt, set_elements (append (elements q) x) q))) /\
  (len (elements q) <> 0 -> Enqueue x q = ([], Panicked NilFuncCall)).
Proof.
  intros Hp Hf. rewrite Enqueue_nil_func, len_to_list by done.
  by destruct (to_list (elements q)).
Qed.

(** X5: [Dequeue] from a queue of two or more elements releases nothing: the
    element it returns stays in the backing array, which the storage still
    refers to, while length and capacity drop by one. *)
Theorem Dequeue_keeps_the_backing_array (q : Queue) (x y : T) (l : list T) :
  to_list (elements q) = x :: y :: l ->
  exists q',
    Dequeue q = ([], Returned ((x, true), q')) /\
    retained (elements q') = retained (elements q) /\
    x ∈ retained (elements q') /\
    S (len (elements q')) = len (elements q) /\
    S (cap (elements q')) = cap (elements q).
Proof.
  intros Hl. destruct (elements q) as [|b c r] eqn:Hs; [done|].
  cbn in Hl. subst c. eexists. split; [by eapply Dequeue_more|].
  cbn. rewrite <- app_assoc. split; [done|]. split; [|done].
  rewrite elem_of_app. right. by left.
Qed.

End queue.

Arguments Queue : clear implicits.
Arguments op : clear implicits.
Arguments retval : clear implicits.
Arguments event : clear implicits.

(** *** The package at element types of the tests *)

(** [Queue[int]]: the zero value is 0, and integers pass the check. *)
Module int.
Definition zero : nat := 0.
Definition reflect_Comparable (_ : nat) : bool := true.
Definition type_name : string := "int".
Definition growslice_extra (_ _ : nat) : nat := 0.
Definition calls := calls zero reflect_Comparable type_name growslice_extra.
Definition Enqueue := @Enqueue nat growslice_extra.
Definition Dequeue := Dequeue zero.
Definition Peek := Peek zero.
End int.

(** [Queue[ContactUser]], as in the package's test. *)
Record ContactUser : Type := { Email : string }.

Module contacts.
Definition zero : ContactUser := {| Email := "" |}.
Definition reflect_Comparable (_ : ContactUser) : bool := true.
Definition type_name : string := "queue.ContactUser".
Definition growslice_extra (_ _ : nat) : nat := 0.
Definition same_email (a b : ContactUser) : bool := bool_decide (Email a = Email b).
Definition alice : ContactUser := {| Email := "alice@example.com" |}.
Definition bob : ContactUser := {| Email := "bob@example.com" |}.
Definition calls := calls zero reflect_Comparable type_name growslice_extra.
Definition Enqueue := @Enqueue ContactUser growslice_extra.
End contacts.

(** [Queue[[]int]]: slices fail the check. *)
Module slices.
Definition zero : list nat := [].
Definition reflect_Comparable (_ : list nat) : bool := false.
Definition type_name : string := "[]int".
Definition growslice_extra (_ _ : nat) : nat := 0.
Definition calls := calls zero reflect_Comparable type_name growslice_extra.
Definition PreventDuplicates := PreventDuplicates zero reflect_Comparable type_name.
End slices.

(** The scenario of the package's test of [Queue[int]]. *)
Example test_Queue :
  int.calls [OpLength; OpIsEmpty; OpPeek; OpEnqueue 10; OpLength; OpPeek;
             OpEnqueue 20; OpLength; OpPeek; OpDequeue; OpLength; OpPeek;
             OpDequeue; OpLength; OpIsEmpty; OpDequeue; OpEnqueue 30; OpLength]
            NewQueue =
  ([], Returned ([RetInt 0; RetBool true; RetElem 0 false; RetNone; RetInt 1;
                  RetElem 10 true; RetNone; RetInt 2; RetElem 10 true;
                  RetElem 10 true; RetInt 1; RetElem 20 true; RetElem 20 true;
                  RetInt 0; RetBool true; RetElem 0 false; RetNone; RetInt 1],
                 {| elements := view [] [30] 0;
                    preventDuplicates := false;
                    equalsFunc := None |})).
Proof. reflexivity. Qed.

(** The scenario of the package's test of duplicate suppression. *)
Example test_Queue_PreventDuplicates :
  exists tr q,
    contacts.calls [OpPreventDuplicates (Some contacts.same_email); OpLength;
                    OpEnqueue contacts.alice; OpLength;
                    OpEnqueue contacts.bob; OpLength;
                    OpEnqueue contacts.alice; OpLength] NewQueue =
    (tr, Returned ([RetError None; RetInt 0; RetNone; RetInt 1; RetNone; RetInt 2;
                    RetNone; RetInt 2], q)).
Proof. by eexists _, _. Qed.

(** C1, as the specification states it, fails when duplicate suppression is
    switched on for a queue that already holds two equal elements. *)
Lemma duplicates_enqueued_before_activation_stay :
  ~ suppressing_queue_has_no_equivalent_pair int.zero int.reflect_Comparable
      int.type_name int.growslice_extra
      [OpEnqueue 1; OpEnqueue 1; OpPreventDuplicates (Some Nat.eqb)].
Proof.
  intros Hc.
  specialize (Hc _ _ _ Nat.eqb eq_refl eq_refl eq_refl 0 1 1 1).
  cbn in Hc. by discriminate Hc.
Qed.

Lemma suppression_keeps_elements_inequivalent_witness :
  exists tr rs q,
    int.calls [OpPreventDuplicates (Some Nat.eqb); OpEnqueue 1; OpEnqueue 2;
               OpEnqueue 1; OpDequeue] NewQueue = (tr, Returned (rs, q)) /\
    (preventDuplicates q = true ->
     exists f, equalsFunc q = Some f /\
               no_later_duplicate f (to_list (elements q)) /\
               ((forall a b, f a b = f b a) ->
                inequivalent_pairs f (to_list (elements q)))).
Proof.
  apply (suppression_keeps_elements_inequivalent int.zero int.reflect_Comparable
           int.type_name int.growslice_extra).
  cbn [clean_activations]. split.
  { exists Nat.eqb. split; [reflexivity|]. apply no_later_duplicate_nil. }
  intros tr r q [= <- <- <-]. split; [exact I|].
  intros tr r q [= <- <- <-]. split; [exact I|].
  intros tr r q [= <- <- <-]. split; [exact I|].
  intros tr r q [= <- <- <-]. split; [exact I|].
  intros tr r q [= <- <- <-]. exact I.
Defined.

(** A queue of contacts that suppresses duplicates by email and holds Alice. *)
Definition alice_queued : Queue ContactUser :=
  {| elements := view [] [contacts.alice] 0;
     preventDuplicates := true;
     equalsFunc := Some contacts.same_email |}.

Lemma Enqueue_suppresses_duplicates_witness :
  (exists q',
      contacts.Enqueue contacts.bob alice_queued =
      ([EvEquals contacts.bob contacts.alice], Returned (tt, q')) /\
      to_list (elements q') = [contacts.alice; contacts.bob]) /\
  contacts.Enqueue contacts.alice alice_queued =
  ([EvEquals contacts.alice contacts.alice], Returned (tt, alice_queued)) /\
  (exists tr q',
      contacts.calls [OpPreventDuplicates (Some (fun u v => bool_decide (Email u = Email v)));
                      OpEnqueue contacts.alice; OpEnqueue contacts.alice; OpLength]
                     NewQueue =
      (tr, Returned ([RetError None; RetNone; RetNone; RetInt 1], q'))).
Proof.
  destruct (Enqueue_suppresses_duplicates contacts.zero contacts.reflect_Comparable
              contacts.type_name contacts.growslice_extra) as [Hscan Hfield].
  split; [|split].
  - destruct (Hscan alice_queued contacts.same_email contacts.bob eq_refl eq_refl)
      as [Hnone _].
    destruct Hnone as (q' & He & _ & Hl).
    + repeat constructor.
    + exists q'. split; [exact He | exact Hl].
  - destruct (Hscan alice_queued contacts.same_email contacts.alice eq_refl eq_refl)
      as [_ Hsome].
    apply (Hsome [] contacts.alice []); [reflexivity | constructor | reflexivity].
  - apply (Hfield string _ Email contacts.alice contacts.alice); reflexivity.
Defined.

Lemma Dequeue_Peek_on_empty_witness :
  (int.Dequeue NewQueue = ([], Returned ((0, false), NewQueue)) /\
   int.Peek NewQueue = ([], Returned ((0, false), NewQueue))) /\
  (exists r, int.Peek (set_elements (view [] [7] 0) NewQueue) =
             ([], Returned (r, set_elements (view [] [7] 0) NewQueue))).
Proof.
  split.
  - apply (Dequeue_Peek_on_empty int.zero NewQueue). reflexivity.
  - apply (Dequeue_Peek_on_empty int.zero (set_elements (view [] [7] 0) NewQueue)).
Defined.

(** A queue of integers after [Enqueue(1)]. *)
Definition one_queued : Queue nat :=
  {| elements := view [] [1] 0; preventDuplicates := false; equalsFunc := None |}.

Example one_queued_reached :
  int.Enqueue 1 NewQueue = ([], Returned (tt, one_queued)).
Proof. reflexivity. Qed.

(** C9, as the specification states it, fails: after the last [Dequeue] the
    storage is the nil slice, a new queue's is [make([]T, 0)]. *)
Lemma drained_storage_is_nil_not_make :
  ~ drained_storage_is_new_storage int.zero one_queued.
Proof.
  intros Hc. specialize (Hc _ _ eq_refl eq_refl). discriminate Hc.
Qed.

Lemma Dequeue_of_last_element_resets_storage_witness :
  exists x q',
    to_list (elements one_queued) = [x] /\
    int.Dequeue one_queued = ([], Returned ((x, true), q')) /\
    q' = set_elements nil_slice one_queued /\
    len (elements q') = 0 /\ cap (elements q') = 0 /\ retained (elements q') = [] /\
    (exists s, slice_from (elements one_queued) 1 = Returned s /\
               len s = 0 /\ x ∈ retained s) /\
    (forall os,
        same_behaviour (int.calls os q')
                       (int.calls os (set_elements (elements NewQueue) one_queued))).
Proof.
  apply (Dequeue_of_last_element_resets_storage int.zero int.reflect_Comparable
           int.type_name int.growslice_extra one_queued).
  reflexivity.
Defined.

(** A queue of slices after [Enqueue([]int{1, 2})]. *)
Definition slice_queued : Queue (list nat) :=
  {| elements := view [] [[1; 2]] 0; preventDuplicates := false; equalsFunc := None |}.

Lemma failed_PreventDuplicates_changes_nothing_witness :
  preventDuplicates slice_queued = false /\
  equalsFunc slice_queued = None /\
  exists tr rs q,
    slices.calls [OpPreventDuplicates (Some (fun _ _ => true)); OpEnqueue [1; 2]]
                 slice_queued = (tr, Returned (rs, q)) /\
    Forall (fun ev => is_EvEquals ev = false) tr /\
    to_list (elements q) = [[1; 2]; [1; 2]].
Proof.
  destruct (failed_PreventDuplicates_changes_nothing slices.zero slices.reflect_Comparable
              slices.type_name slices.growslice_extra
              [OpEnqueue [1; 2]] (Some (fun _ _ => false))
              [] [RetNone] slice_queued
              [EvComparable []] (Errorf "type []int is not comparable") slice_queued
              eq_refl eq_refl)
    as (_ & Hp & Hf & Hlater).
  split; [exact Hp|]. split; [exact Hf|].
  destruct (Hlater [OpPreventDuplicates (Some (fun _ _ => true)); OpEnqueue [1; 2]])
    as (tr & rs & q & Hc & Htr & _).
  exists tr, rs, q. split; [exact Hc|]. split; [exact Htr|].
  unfold slices.calls in Hc. cbn in Hc. by injection Hc as _ _ <-.
Defined.

(** *** What the storage cannot change *)

Section contents.

Context {T : Type}.
Variable zero : T.
Variable reflect_Comparable : T -> bool.
Variable type_name : string.

(** Two queues with the same elements in the same order, the same flag and
    the same func; their storage may differ in capacity, in what lies behind
    the window, and in being nil or not. *)
Definition same_contents (q1 q2 : Queue T) : Prop :=
  to_list (elements q1) = to_list (elements q2) /\
  preventDuplicates q1 = preventDuplicates q2 /\
  equalsFunc q1 = equalsFunc q2.

(** Two runs with the same calls to [reflect] and the func, and the same
    end: the same results and queues of the same contents, or the same
    panic. *)
Definition same_results {A} (r1 r2 : list (event T) * outcome (A * Queue T)) : Prop :=
  fst r1 = fst r2 /\
  match snd r1, snd r2 with
  | Returned (a1, q1), Returned (a2, q2) => a1 = a2 /\ same_contents q1 q2
  | Panicked p1, Panicked p2 => p1 = p2
  | _, _ => False
  end.

Lemma same_contents_append g1 g2 q1 q2 x :
  same_contents q1 q2 ->
  same_contents (set_elements (append g1 (elements q1) x) q1)
                (set_elements (append g2 (elements q2) x) q2).
Proof.
  intros (Hl & Hp & Hf). repeat split; [|done..].
  cbn. by rewrite !to_list_append, Hl.
Qed.

Lemma Enqueue_same_contents g1 g2 x q1 q2 :
  same_contents q1 q2 -> same_results (Enqueue g1 x q1) (Enqueue g2 x q2).
Proof.
  intros Hq. pose proof Hq as (Hl & Hp & Hf).
  destruct (preventDuplicates q1) eqn:Hp1; symmetry in Hp.
  - destruct (equalsFunc q1) as [f|] eqn:Hf1; symmetry in Hf.
    + rewrite !(Enqueue_on _ f), Hl by done.
      destruct (existsb _ _); (split; [done|]); cbn; (split; [done|]); [done|].
      by apply same_contents_append.
    + rewrite !Enqueue_nil_func, Hl by done.
      destruct (to_list (elements q2)) as [|e es]; [|done].
      split; [done|]. cbn. split; [done|]. by apply same_contents_append.
  - rewrite !Enqueue_off by done. split; [done|]. cbn. split; [done|].
    by apply same_contents_append.
Qed.

Lemma Dequeue_same_contents q1 q2 :
  same_contents q1 q2 -> same_results (Dequeue zero q1) (Dequeue zero q2).
Proof.
  intros (Hl & Hp & Hf). destruct (to_list (elements q2)) as [|x l] eqn:Hl2.
  - rewrite !Dequeue_empty by (by rewrite len_to_list, ?Hl, ?Hl2).
    split; [done|]. cbn. split; [done|]. repeat split; [|done..]. by rewrite Hl, Hl2.
  - destruct (Dequeue_front zero x l q1 Hl) as (q1' & -> & Hl1' & Hp1 & Hf1).
    destruct (Dequeue_front zero x l q2 Hl2) as (q2' & -> & Hl2' & Hp2 & Hf2).
    split; [done|]. cbn. split; [done|]. repeat split; congruence.
Qed.

Lemma call_same_contents g1 g2 o q1 q2 :
  same_contents q1 q2 ->
  same_results (call zero reflect_Comparable type_name g1 o q1)
               (call zero reflect_Comparable type_name g2 o q2).
Proof.
  intros Hq. pose proof Hq as (Hl & Hp & Hf).
  destruct o as [g|x| | | |].
  - rewrite !call_PreventDuplicates. split; [done|]. cbn.
    destruct (reflect_Comparable zero); (split; [done|]); [|done].
    by repeat split.
  - rewrite !call_Enqueue. destruct (Enqueue_same_contents g1 g2 x q1 q2 Hq) as [Ht Hr].
    destruct (Enqueue g1 x q1) as [t1 [[[] a1]|p1]], (Enqueue g2 x q2) as [t2 [[[] a2]|p2]];
      cbn in Ht, Hr; try done. split; [done|]. cbn. by destruct Hr.
  - rewrite !call_Dequeue. destruct (Dequeue_same_contents q1 q2 Hq) as [Ht Hr].
    destruct (Dequeue zero q1) as [t1 [[r1 a1]|p1]], (Dequeue zero q2) as [t2 [[r2 a2]|p2]];
      cbn in Ht, Hr; try done. split; [done|]. cbn. destruct Hr as [-> Hr]. by split.
  - rewrite !call_Length, !len_to_list, Hl. by split.
  - rewrite !call_IsEmpty, !len_to_list, Hl. by split.
  - rewrite !call_Peek. destruct (to_list (elements q2)) as [|x l] eqn:Hl2.
    + rewrite !Peek_empty by (by rewrite len_to_list, ?Hl, ?Hl2). by split.
    + rewrite !(Peek_front zero x l) by done. by split.
Qed.

(** X6: what a sequence of calls returns, and which calls it makes to the
    func, depends on the elements in the queue, the flag and the func, and on
    nothing else: not on the capacity of the storage, not on what the backing
    array still holds of dequeued elements, and not on how the runtime grows
    slices on [append]. *)
Theorem results_depend_on_contents_only
    (g1 g2 : nat -> nat -> nat) (os : list (op T)) (q1 q2 : Queue T) :
  same_contents q1 q2 ->
  same_results (calls zero reflect_Comparable type_name g1 os q1)
               (calls zero reflect_Comparable type_name g2 os q2).
Proof.
  revert q1 q2. induction os as [|o os IH]; intros q1 q2 Hq.
  - by split.
  - rewrite !calls_cons. destruct (call_same_contents g1 g2 o q1 q2 Hq) as [Ht Hr].
    destruct (call _ _ _ g1 o q1) as [t1 [[r1 a1]|p1]],
             (call _ _ _ g2 o q2) as [t2 [[r2 a2]|p2]];
      cbn in Ht, Hr; try done; try (by subst).
    destruct Hr as [-> Ha]. subst t2. destruct (IH a1 a2 Ha) as [Ht' Hr'].
    destruct (calls _ _ _ g1 os a1) as [t1' [[rs1 b1]|p1]],
             (calls _ _ _ g2 os a2) as [t2' [[rs2 b2]|p2]];
      cbn in Ht', Hr'; try done; subst t2'; try (by subst).
    destruct Hr' as [-> Hb]. by split.
Qed.

End contents.

Lemma results_depend_on_contents_only_witness :
  same_results
    (calls int.zero int.reflect_Comparable int.type_name (fun _ needed => needed)
       [OpPreventDuplicates (Some Nat.eqb); OpEnqueue 4; OpEnqueue 4; OpDequeue; OpLength]
       {| elements := view [9; 8] [1; 2] 5; preventDuplicates := false; equalsFunc := None |})
    (calls int.zero int.reflect_Comparable int.type_name (fun _ _ => 0)
       [OpPreventDuplicates (Some Nat.eqb); OpEnqueue 4; OpEnqueue 4; OpDequeue; OpLength]
       {| elements := view [] [1; 2] 0; preventDuplicates := false; equalsFunc := None |}).
Proof.
  apply results_depend_on_contents_only. repeat split.
Defined.

Lemma Enqueue_again_changes_nothing_witness :
  exists tr q1 tr',
    contacts.Enqueue contacts.bob alice_queued = (tr, Returned (tt, q1)) /\
    contacts.Enqueue contacts.bob q1 = (tr', Returned (tt, q1)).
Proof.
  apply (Enqueue_again_changes_nothing contacts.growslice_extra alice_queued
           contacts.same_email contacts.bob); reflexivity.
Defined.

(** A queue of integers after [PreventDuplicates(nil)] and [Enqueue(1)]. *)
Definition nil_func_queued : Queue nat :=
  {| elements := view [] [1] 0; preventDuplicates := true; equalsFunc := None |}.

Example nil_func_queued_reached :
  int.calls [OpPreventDuplicates None; OpEnqueue 1] NewQueue =
  ([EvComparable 0], Returned ([RetError None; RetNone], nil_func_queued)).
Proof. reflexivity. Qed.

Lemma Enqueue_with_nil_func_witness :
  int.Enqueue 2 nil_func_queued = ([], Panicked NilFuncCall) /\
  int.Enqueue 1 (set_preventDuplicates true NewQueue) =
  ([], Returned (tt, nil_func_queued)).
Proof.
  split.
  - apply (Enqueue_with_nil_func int.growslice_extra nil_func_queued 2);
      [reflexivity | reflexivity | discriminate].
  - apply (Enqueue_with_nil_func int.growslice_extra (set_preventDuplicates true NewQueue) 1);
      reflexivity.
Defined.

(** The queue of contacts after Alice is dequeued, the func is replaced by
    nil and Bob is enqueued. *)
Definition bob_queued : Queue ContactUser :=
  {| elements := view [] [contacts.bob] 0; preventDuplicates := true; equalsFunc := None |}.

Lemma suppression_is_never_switched_off_witness :
  preventDuplicates bob_queued = true.
Proof.
  apply (suppression_is_never_switched_off contacts.zero contacts.reflect_Comparable
           contacts.type_name contacts.growslice_extra
           [OpDequeue; OpPreventDuplicates None; OpEnqueue contacts.bob] alice_queued
           [EvComparable contacts.zero]
           [RetElem contacts.alice true; RetError None; RetNone] bob_queued);
    reflexivity.
Defined.

(** A queue of integers after [Enqueue(1)], [Enqueue(2)], [Enqueue(3)] at a
    growth policy that doubles the capacity. *)
Definition three_queued : Queue nat :=
  {| elements := view [] [1; 2; 3] 1; preventDuplicates := false; equalsFunc := None |}.

Lemma Dequeue_keeps_the_backing_array_witness :
  exists q',
    int.Dequeue three_queued = ([], Returned ((1, true), q')) /\
    retained (elements q') = retained (elements three_queued) /\
    1 ∈ retained (elements q') /\
    S (len (elements q')) = len (elements three_queued) /\
    S (cap (elements q')) = cap (elements three_queued).
Proof.
  apply (Dequeue_keeps_the_backing_array int.zero three_queued 1 2 [3]). reflexivity.
Defined.

End queue.

(** ** Package queue, first version

    The source holds the package a second time, as it was before duplicate
    suppression: the struct has the elements only, and there is no
    [PreventDuplicates]. *)

Module queue_v1.

Import queue.

Section queue_v1.

Context {T : Type}.
Variable zero : T.
Variable growslice_extra : nat -> nat -> nat.

Record Queue : Type := { elements : slice (T := T) }.

Definition NewQueue : Queue := {| elements := make0 |}.

Definition Enqueue (element : T) (q : Queue) : Queue :=
  {| elements := append growslice_extra (elements q) element |}.

Definition Length (q : Queue) : nat := len (elements q).

Definition IsEmpty (q : Queue) : bool := len (elements q) =? 0.

Definition Dequeue (q : Queue) : outcome ((T * bool) * Queue) :=
  if IsEmpty q then Returned ((zero, false), q)
  else
    match index (elements q) 0 with
    | Panicked p => Panicked p
    | Returned element =>
        if Length q =? 1 then Returned ((element, true), {| elements := nil_slice |})
        else
          match slice_from (elements q) 1 with
          | Panicked p => Panicked p
          | Returned rest => Returned ((element, true), {| elements := rest |})
          end
    end.

Definition Peek (q : Queue) : outcome (T * bool) :=
  if IsEmpty q then Returned (zero, false)
  else
    match index (elements q) 0 with
    | Panicked p => Panicked p
    | Returned element => Returned (element, true)
    end.

Inductive op : Type :=
| OpEnqueue (element : T)
| OpDequeue
| OpLength
| OpIsEmpty
| OpPeek.

Definition call (o : op) (q : Queue) : outcome (retval T * Queue) :=
  match o with
  | OpEnqueue x => Returned (RetNone, Enqueue x q)
  | OpDequeue =>
      match Dequeue q with
      | Returned (r, q') => Returned (RetElem (fst r) (snd r), q')
      | Panicked p => Panicked p
      end
  | OpLength => Returned (RetInt (Length q), q)
  | OpIsEmpty => Returned (RetBool (IsEmpty q), q)
  | OpPeek =>
      match Peek q with
      | Returned r => Returned (RetElem (fst r) (snd r), q)
      | Panicked p => Panicked p
      end
  end.

Fixpoint calls (os : list op) (q : Queue) : outcome (list (retval T) * Queue) :=
  match os with
  | [] => Returned ([], q)
  | o :: os' =>
      match call o q with
      | Returned (r, q') =>
          match calls os' q' with
          | Returned (rs, q'') => Returned (r :: rs, q'')
          | Panicked p => Panicked p
          end
      | Panicked p => Panicked p
      end
  end.

(** The same call on the later version. *)
Definition later_op (o : op) : queue.op T :=
  match o with
  | OpEnqueue x => queue.OpEnqueue x
  | OpDequeue => queue.OpDequeue
  | OpLength => queue.OpLength
  | OpIsEmpty => queue.OpIsEmpty
  | OpPeek => queue.OpPeek
  end.

(** The queue of the later version with the same storage, as [NewQueue]
    leaves the new fields. *)
Definition later (q : Queue) : queue.Queue T :=
  {| queue.elements := elements q;
     queue.preventDuplicates := false;
     queue.equalsFunc := None |}.

Lemma call_later reflect_Comparable type_name o q :
  exists r q',
    call o q = Returned (r, q') /\
    queue.call zero reflect_Comparable type_name growslice_extra (later_op o) (later q) =
    ([], Returned (r, later q')).
Proof.
  destruct o as [x| | | |]; cbn [later_op].
  - eexists _, _. split; [done|].
    by rewrite call_Enqueue, Enqueue_off.
  - destruct q as [[|b [|x [|y l]] r]].
    + eexists _, _. split; [done|]. by rewrite call_Dequeue, Dequeue_empty.
    + eexists _, _. split; [done|]. by rewrite call_Dequeue, Dequeue_empty.
    + eexists _, _. split; [done|]. by rewrite call_Dequeue, (Dequeue_last zero b x r).
    + eexists _, _. split; [done|].
      by rewrite call_Dequeue, (Dequeue_more zero b x y l r).
  - by eexists _, _.
  - by eexists _, _.
  - destruct q as [[|b [|x l] r]].
    + eexists _, _. split; [done|]. by rewrite call_Peek, Peek_empty.
    + eexists _, _. split; [done|]. by rewrite call_Peek, Peek_empty.
    + eexists _, _. split; [done|]. by rewrite call_Peek, (Peek_front zero x l).
Qed.

(** X7: the later version, as long as [PreventDuplicates] is not called,
    does what the first version did: every sequence of calls returns in both,
    with the same results and the same storage, and the later version makes no
    call to [reflect] or to a func. *)
Theorem later_version_agrees_with_first
    (reflect_Comparable : T -> bool) (type_name : string) (os : list op) (q : Queue) :
  exists rs q',
    calls os q = Returned (rs, q') /\
    queue.calls zero reflect_Comparable type_name growslice_extra
      (later_op <$> os) (later q) = ([], Returned (rs, later q')).
Proof.
  revert q. induction os as [|o os IH]; intros q.
  - by exists [], q.
  - destruct (call_later reflect_Comparable type_name o q) as (r & q1 & Ho & Ho').
    destruct (IH q1) as (rs & q' & Hos & Hos').
    exists (r :: rs), q'. cbn [calls]. rewrite Ho, Hos. split; [done|].
    by rewrite fmap_cons, calls_cons, Ho', Hos'.
Qed.

End queue_v1.

(** The scenario of the first version's test. *)
Example test_Queue_v1 :
  calls 0 (fun _ _ => 0)
        [OpLength; OpIsEmpty; OpPeek; OpEnqueue 10; OpLength; OpPeek;
         OpEnqueue 20; OpLength; OpPeek; OpDequeue; OpLength; OpPeek;
         OpDequeue; OpLength; OpIsEmpty; OpDequeue; OpEnqueue 30; OpLength]
        NewQueue =
  Returned ([RetInt 0; RetBool true; RetElem 0 false; RetNone; RetInt 1;
             RetElem 10 true; RetNone; RetInt 2; RetElem 10 true;
             RetElem 10 true; RetInt 1; RetElem 20 true; RetElem 20 true;
             RetInt 0; RetBool true; RetElem 0 false; RetNone; RetInt 1],
            {| elements := view [] [30] 0 |}).
Proof. reflexivity. Qed.

End queue_v1.

(** ** Package set *)

Module set.

(** Pointers to [Set] objects. *)
Definition loc : Type := positive.

Inductive panic : Type :=
| NilDereference       (* method call through a pointer to no object *)
| NilMapWrite          (* assignment to an entry in a nil map *)
| UnlockOfUnlocked.    (* Unlock or RUnlock of a mutex that is not locked *)

(** A call returns, panics, or waits for a lock that nobody will release. *)
Inductive outcome (A : Type) : Type :=
| Returned (a : A)
| Panicked (p : panic)
| Blocked.
Arguments Returned {A} a.
Arguments Panicked {A} p.
Arguments Blocked {A}.

(** [sync.RWMutex], as seen by one goroutine. *)
Record RWMutex : Type := { writer : bool; readers : nat }.

Definition unlocked : RWMutex := {| writer := false; readers := 0 |}.

Definition RLock (m : RWMutex) : outcome RWMutex :=
  if writer m then Blocked
  else Returned {| writer := false; readers := S (readers m) |}.

Definition RUnlock (m : RWMutex) : outcome RWMutex :=
  match readers m with
  | 0 => Panicked UnlockOfUnlocked
  | S n => Returned {| writer := writer m; readers := n |}
  end.

Definition Lock (m : RWMutex) : outcome RWMutex :=
  if writer m || (0 <? readers m) then Blocked
  else Returned {| writer := true; readers := 0 |}.

Definition Unlock (m : RWMutex) : outcome RWMutex :=
  if writer m then Returned {| writer := false; readers := readers m |}
  else Panicked UnlockOfUnlocked.

(** The order in which the runtime visits [l] in a [range] over a map: it
    picks the next element among those left, [picks k] being its choice when
    [S k] elements are left.  Every order arises from some [picks]. *)
Fixpoint visit {A} (picks : nat -> nat) (n : nat) (l : list A) : list A :=
  match n with
  | 0 => []
  | S k =>
      let i := picks k `mod` length l in
      match l !! i with
      | Some x => x :: visit picks k (delete i l)
      | None => []
      end
  end.

Section set.

Context {T : Type} `{Countable T}.

(** The choices of the runtime in the n-th [range] loop of the program. *)
Variable map_iteration : nat -> nat -> nat.

(** [Set[T]]; [members] is [None] for the nil map of the zero value. *)
Record Set_ : Type := {
  members : option (gmap T ());
  mu : RWMutex
}.

Definition set_members (m : option (gmap T ())) (o : Set_) : Set_ :=
  {| members := m; mu := mu o |}.

Definition set_mu (m : RWMutex) (o : Set_) : Set_ :=
  {| members := members o; mu := m |}.

(** The objects on the heap, and the number of [range] loops started. *)
Record world : Type := {
  heap : gmap loc Set_;
  ranges : nat
}.

Definition set_heap (h : gmap loc Set_) (w : world) : world :=
  {| heap := h; ranges := ranges w |}.

(** *** Actions on the world *)

Definition Go (A : Type) : Type := world -> outcome (A * world).

Definition ret {A} (a : A) : Go A := fun w => Returned (a, w).

Definition bind {A B} (m : Go A) (k : A -> Go B) : Go B := fun w =>
  match m w with
  | Returned (a, w') => k a w'
  | Panicked p => Panicked p
  | Blocked => Blocked
  end.

Notation "x <- m ;; k" := (bind m (fun x => k))
  (at level 100, m at next level, right associativity).
Notation "m ;; k" := (bind m (fun _ => k))
  (at level 100, right associativity).

Definition lift {A} (o : outcome A) : Go A := fun w =>
  match o with
  | Returned a => Returned (a, w)
  | Panicked p => Panicked p
  | Blocked => Blocked
  end.

(** [*s] *)
Definition load (s : loc) : Go Set_ := fun w =>
  match heap w !! s with
  | Some o => Returned (o, w)
  | None => Panicked NilDereference
  end.

(** [*s = o] *)
Definition store (s : loc) (o : Set_) : Go unit := fun w =>
  Returned (tt, set_heap (<[s := o]> (heap w)) w).

(** [&Set[T]{...}]: a new object at an address not in use. *)
Definition alloc (o : Set_) : Go loc := fun w =>
  let l := fresh (dom (heap w)) in
  Returned (l, set_heap (<[l := o]> (heap w)) w).

(** A method of [s.mu]. *)
Definition on_mu (f : RWMutex -> outcome RWMutex) (s : loc) : Go unit :=
  o <- load s ;;
  m <- lift (f (mu o)) ;;
  store s (set_mu m o).

(** The keys a [range] over the map visits, in the order of this loop. *)
Definition range (m : option (gmap T ())) : Go (list T) := fun w =>
  let keys := match m with
              | Some m => (map_to_list m).*1
              | None => []
              end in
  Returned (visit (map_iteration (ranges w)) (length keys) keys,
            {| heap := heap w; ranges := S (ranges w) |}).

(** The body of a loop, for each key in turn. *)
Fixpoint for_each (keys : list T) (body : T -> Go unit) : Go unit :=
  match keys with
  | [] => ret tt
  | k :: keys' => body k ;; for_each keys' body
  end.

(** [_, exists := m[member]] *)
Definition exists_in (m : option (gmap T ())) (member : T) : bool :=
  match m with
  | Some m => bool_decide (is_Some (m !! member))
  | None => false
  end.

(** *** The methods *)

Definition NewSet : Go loc :=
  alloc {| members := Some ∅; mu := unlocked |}.

(** [new(Set[T])]: the zero value, which the package tells not to use. *)
Definition new_Set : Go loc :=
  alloc {| members := None; mu := unlocked |}.

Definition Members (s : loc) : Go (list T) :=
  on_mu RLock s ;;
  o <- load s ;;
  keys <- range (members o) ;;
  let members := foldl (fun members member => members ++ [member]) [] keys in
  on_mu RUnlock s ;;
  ret members.

Definition Add (s : loc) (member : T) : Go unit :=
  on_mu Lock s ;;
  o <- load s ;;
  match members o with
  | None => lift (Panicked NilMapWrite)
  | Some m => store s (set_members (Some (<[member := tt]> m)) o)
  end ;;
  on_mu Unlock s.

Definition Remove (s : loc) (member : T) : Go unit :=
  on_mu Lock s ;;
  o <- load s ;;
  match members o with
  | None => ret tt
  | Some m => store s (set_members (Some (delete member m)) o)
  end ;;
  on_mu Unlock s.

Definition Contains (s : loc) (member : T) : Go bool :=
  on_mu RLock s ;;
  o <- load s ;;
  let exists_ := exists_in (members o) member in
  on_mu RUnlock s ;;
  ret exists_.

Definition Size (s : loc) : Go nat :=
  on_mu RLock s ;;
  o <- load s ;;
  let n := match members o with Some m => size m | None => 0 end in
  on_mu RUnlock s ;;
  ret n.

Definition Clear (s : loc) : Go unit :=
  on_mu Lock s ;;
  o <- load s ;;
  store s (set_members (Some ∅) o) ;;
  on_mu Unlock s.

Definition Intersect (s other : loc) : Go loc :=
  result <- NewSet ;;
  on_mu RLock s ;;
  on_mu RLock other ;;
  o <- load s ;;
  keys <- range (members o) ;;
  for_each keys (fun member =>
    o' <- load other ;;
    if exists_in (members o') member then Add result member else ret tt) ;;
  on_mu RUnlock other ;;
  on_mu RUnlock s ;;
  ret result.

Definition Union (s other : loc) : Go loc :=
  result <- NewSet ;;
  on_mu RLock s ;;
  on_mu RLock other ;;
  o <- load s ;;
  keys <- range (members o) ;;
  for_each keys (fun member => Add result member) ;;
  o' <- load other ;;
  keys' <- range (members o') ;;
  for_each keys' (fun member => Add result member) ;;
  on_mu RUnlock other ;;
  on_mu RUnlock s ;;
  ret result.

Definition Difference (s other : loc) : Go loc :=
  result <- NewSet ;;
  on_mu RLock s ;;
  on_mu RLock other ;;
  o <- load s ;;
  keys <- range (members o) ;;
  for_each keys (fun member =>
    o' <- load other ;;
    if negb (exists_in (members o') member) then Add result member else ret tt) ;;
  on_mu RUnlock other ;;
  on_mu RUnlock s ;;
  ret result.

(** The world before the program has made any [Set]. *)
Definition start : world := {| heap := ∅; ranges := 0 |}.

(** *** What the claims speak of *)

Inductive op : Type :=
| OpAdd (member : T)
| OpRemove (member : T)
| OpClear.

Definition call (s : loc) (o : op) : Go unit :=
  match o with
  | OpAdd x => Add s x
  | OpRemove x => Remove s x
  | OpClear => Clear s
  end.

Fixpoint calls (s : loc) (os : list op) : Go unit :=
  match os with
  | [] => ret tt
  | o :: os' => call s o ;; calls s os'
  end.

(** The calls [os] on [s], with a call of [Contains] before each [Add] and
    [Remove] that tells whether the call will change the set.  The result
    counts, since the last [Clear], the calls of [Add] that put in an element
    that was not there and the calls of [Remove] that took out one that was. *)
Fixpoint tally (s : loc) (os : list op) (added removed : nat) : Go (nat * nat) :=
  match os with
  | [] => ret (added, removed)
  | OpAdd x :: os' =>
      present <- Contains s x ;;
      Add s x ;;
      tally s os' (if present then added else S added) removed
  | OpRemove x :: os' =>
      present <- Contains s x ;;
      Remove s x ;;
      tally s os' added (if present then S removed else removed)
  | OpClear :: os' =>
      Clear s ;;
      tally s os' 0 0
  end.

(** The same, collecting the elements: those passed to [Add], and those that
    a [Remove] took out, since the last [Clear]. *)
Fixpoint distinct_tally (s : loc) (os : list op) (added removed : gset T)
    : Go (gset T * gset T) :=
  match os with
  | [] => ret (added, removed)
  | OpAdd x :: os' =>
      Add s x ;;
      distinct_tally s os' (added ∪ {[x]}) removed
  | OpRemove x :: os' =>
      present <- Contains s x ;;
      Remove s x ;;
      distinct_tally s os' added (if present then removed ∪ {[x]} else removed)
  | OpClear :: os' =>
      Clear s ;;
      distinct_tally s os' ∅ ∅
  end.

(** The exported functions of the package, and what they hand back, by
    their result types. *)
Inductive method : Type :=
| MNewSet
| MMembers (s : loc)
| MAdd (s : loc) (member : T)
| MRemove (s : loc) (member : T)
| MContains (s : loc) (member : T)
| MSize (s : loc)
| MClear (s : loc)
| MIntersect (s other : loc)
| MUnion (s other : loc)
| MDifference (s other : loc).

Inductive result : Type :=
| ResNone
| ResSet (r : loc)
| ResMembers (l : list T)
| ResBool (b : bool)
| ResInt (n : nat).

Definition invoke (m : method) : Go result :=
  match m with
  | MNewSet => r <- NewSet ;; ret (ResSet r)
  | MMembers s => l <- Members s ;; ret (ResMembers l)
  | MAdd s x => Add s x ;; ret ResNone
  | MRemove s x => Remove s x ;; ret ResNone
  | MContains s x => b <- Contains s x ;; ret (ResBool b)
  | MSize s => n <- Size s ;; ret (ResInt n)
  | MClear s => Clear s ;; ret ResNone
  | MIntersect s other => r <- Intersect s other ;; ret (ResSet r)
  | MUnion s other => r <- Union s other ;; ret (ResSet r)
  | MDifference s other => r <- Difference s other ;; ret (ResSet r)
  end.

(** C2 as the specification states it, for the calls [os] on a new set. *)
Definition Size_is_distinct_added_minus_removed (w : world) (os : list op) : Prop :=
  forall s w1 c w2 n,
    NewSet w = Returned (s, w1) ->
    distinct_tally s os ∅ ∅ w1 = Returned (c, w2) ->
    Size s w2 = Returned (n, w2) ->
    n = size (fst c) - size (snd c).

(** The three numbers of the partition law. *)
Definition partition_sizes (a b : loc) : Go (nat * nat * nat) :=
  i <- Intersect a b ;;
  d <- Difference a b ;;
  mi <- Members i ;;
  md <- Members d ;;
  ma <- Members a ;;
  ret (length mi, length md, length ma).

(** The call [f] returns a pointer [r] to an object that was not there
    before, and leaves all other objects as they were, [a] and [b] among
    them, also when the new object is changed afterwards. *)
Definition returns_new_Set (f : Go loc) (a b : loc) (w : world) : Prop :=
  exists r w',
    f w = Returned (r, w') /\
    heap w !! r = None /\
    r <> a /\ r <> b /\
    (exists m, heap w' !! r = Some {| members := Some m; mu := unlocked |}) /\
    (forall l, l <> r -> heap w' !! l = heap w !! l) /\
    heap w' !! a = heap w !! a /\
    heap w' !! b = heap w !! b /\
    (forall x, exists w'',
        Add r x w' = Returned (tt, w'') /\
        heap w'' !! a = heap w !! a /\
        heap w'' !! b = heap w !! b).

(** An object that no goroutine has locked. *)
Definition obj (m : option (gmap T ())) : Set_ := {| members := m; mu := unlocked |}.

(** The map a loop builds in [result] from the keys it visits, adding those
    that pass [keep]. *)
Definition add_all (keep : T -> bool) (keys : list T) (acc : gmap T ()) : gmap T () :=
  foldl (fun acc k => if keep k then <[k := tt]> acc else acc) acc keys.

(** The keys of a map that may be nil. *)
Definition keys_of (m : option (gmap T ())) : gset T :=
  match m with
  | Some m => dom m
  | None => ∅
  end.

(** *** The runtime's order of visit *)

Lemma visit_Permutation {A} (picks : nat -> nat) (l : list A) :
  visit picks (length l) l ≡ₚ l.
Proof.
  remember (length l) as n eqn:Hn. revert l Hn.
  induction n as [|k IH]; intros l Hn.
  - by destruct l.
  - cbn. assert (picks k `mod` length l < length l) as Hi
      by (apply Nat.mod_upper_bound; lia).
    destruct (lookup_lt_is_Some_2 l _ Hi) as [x Hx]. rewrite Hx.
    etrans; [|symmetry; exact (delete_Permutation l _ x Hx)].
    constructor. apply IH. rewrite length_delete by eauto. lia.
Qed.

Lemma keys_NoDup (m : gmap T ()) : NoDup (map_to_list m).*1.
Proof. apply NoDup_fst_map_to_list. Qed.

Lemma range_eq m w :
  exists keys,
    range m w = Returned (keys, {| heap := heap w; ranges := S (ranges w) |}) /\
    NoDup keys /\
    (forall k, k ∈ keys <-> k ∈ keys_of m) /\
    length keys = size (keys_of m).
Proof.
  unfold range. eexists. split; [done|].
  set (keys := match m with Some m => (map_to_list m).*1 | None => [] end).
  pose proof (visit_Permutation (map_iteration (ranges w)) keys) as Hp.
  assert (NoDup keys) as Hnd by (destruct m; [apply keys_NoDup|constructor]).
  assert (forall k, k ∈ keys <-> k ∈ keys_of m) as Hk.
  { intros k. destruct m as [m|]; cbn; [|set_solver].
    subst keys. rewrite elem_of_dom, list_elem_of_fmap. split.
    - intros ([k' v] & -> & Hkv). apply elem_of_map_to_list in Hkv. by eexists.
    - intros [v Hv]. exists (k, v). split; [done|]. by apply elem_of_map_to_list. }
  split; [by rewrite Hp|]. split; [intros k; by rewrite Hp|].
  rewrite Hp. destruct m as [m|]; cbn; [|done].
  subst keys. by rewrite length_fmap, length_map_to_list, size_dom.
Qed.

(** *** The methods in closed form *)

Lemma set_heap_id w : set_heap (heap w) w = w.
Proof. by destruct w. Qed.

Lemma set_heap_set_heap h h' w : set_heap h (set_heap h' w) = set_heap h w.
Proof. done. Qed.

Lemma on_mu_eq f s o w :
  heap w !! s = Some o ->
  on_mu f s w =
  match f (mu o) with
  | Returned m => Returned (tt, set_heap (<[s := set_mu m o]> (heap w)) w)
  | Panicked p => Panicked p
  | Blocked => Blocked
  end.
Proof.
  intros Hs. unfold on_mu, bind, load, lift, store. rewrite Hs.
  by destruct (f (mu o)).
Qed.

(** The object while one more reader holds its lock. *)
Definition rlocked (o : Set_) : Set_ :=
  set_mu {| writer := false; readers := S (readers (mu o)) |} o.

Lemma on_mu_RLock s o w :
  heap w !! s = Some o -> writer (mu o) = false ->
  on_mu RLock s w = Returned (tt, set_heap (<[s := rlocked o]> (heap w)) w).
Proof. intros Hs Hw. rewrite (on_mu_eq _ _ o) by done. unfold RLock. by rewrite Hw. Qed.

Lemma on_mu_RUnlock s o w :
  heap w !! s = Some (rlocked o) -> writer (mu o) = false ->
  on_mu RUnlock s w = Returned (tt, set_heap (<[s := o]> (heap w)) w).
Proof.
  intros Hs Hw. rewrite (on_mu_eq _ _ (rlocked o)) by done. cbn.
  destruct o as [m [wr rd]]. cbn in Hw. by subst wr.
Qed.

Lemma read_bracket_heap s o (h : gmap loc Set_) :
  h !! s = Some o -> <[s := o]> (<[s := rlocked o]> h) = h.
Proof. intros Hs. by rewrite insert_insert_eq, insert_id. Qed.

Lemma Contains_eq s x o w :
  heap w !! s = Some o -> writer (mu o) = false ->
  Contains s x w = Returned (exists_in (members o) x, w).
Proof.
  intros Hs Hw. unfold Contains. unfold bind at 1.
  rewrite (on_mu_RLock s o) by done. unfold bind at 1, load at 1. cbn [heap set_heap].
  rewrite lookup_insert_eq. unfold bind at 1.
  rewrite (on_mu_RUnlock s o) by (first [done | cbn; by rewrite lookup_insert_eq]).
  cbn [heap set_heap ret]. by rewrite set_heap_set_heap, read_bracket_heap, set_heap_id.
Qed.

Lemma Size_eq s o w :
  heap w !! s = Some o -> writer (mu o) = false ->
  Size s w = Returned (size (keys_of (members o)), w).
Proof.
  intros Hs Hw. unfold Size. unfold bind at 1.
  rewrite (on_mu_RLock s o) by done. unfold bind at 1, load at 1. cbn [heap set_heap].
  rewrite lookup_insert_eq. unfold bind at 1.
  rewrite (on_mu_RUnlock s o) by (first [done | cbn; by rewrite lookup_insert_eq]).
  cbn [heap set_heap ret]. rewrite set_heap_set_heap, read_bracket_heap, set_heap_id by done.
  cbn. destruct (members o) as [m|]; cbn; [by rewrite size_dom|done].
Qed.

Lemma foldl_append {A} (l acc : list A) :
  foldl (fun members member => members ++ [member]) acc l = acc ++ l.
Proof.
  revert acc. induction l as [|x l IH]; intros acc; cbn.
  - by rewrite app_nil_r.
  - by rewrite IH, <- app_assoc.
Qed.

Lemma Members_eq s o w :
  heap w !! s = Some o -> writer (mu o) = false ->
  exists keys,
    Members s w = Returned (keys, {| heap := heap w; ranges := S (ranges w) |}) /\
    NoDup keys /\
    (forall k, k ∈ keys <-> k ∈ keys_of (members o)) /\
    length keys = size (keys_of (members o)).
Proof.
  intros Hs Hw. unfold Members. unfold bind at 1.
  rewrite (on_mu_RLock s o) by done. unfold bind at 1, load at 1. cbn [heap set_heap].
  rewrite lookup_insert_eq. unfold bind at 1. cbn [rlocked set_mu members].
  destruct (range_eq (members o) (set_heap (<[s:=rlocked o]> (heap w)) w))
    as (keys & -> & Hnd & Hk & Hl).
  exists keys. split; [|done]. unfold bind at 1.
  rewrite (on_mu_RUnlock s o) by (first [done | cbn; by rewrite lookup_insert_eq]).
  cbn. by rewrite foldl_append, read_bracket_heap.
Qed.

Lemma Add_eq s x m w :
  heap w !! s = Some (obj (Some m)) ->
  Add s x w = Returned (tt, set_heap (<[s := obj (Some (<[x := tt]> m))]> (heap w)) w).
Proof.
  intros Hs. unfold Add. unfold bind at 1.
  rewrite (on_mu_eq _ _ (obj (Some m))) by done. cbn.
  unfold bind at 1, load at 1. cbn. rewrite lookup_insert_eq. cbn.
  rewrite (on_mu_eq _ _ (set_members (Some (<[x:=()]> m)) (set_mu {| writer := true; readers := 0 |} (obj (Some m)))))
    by (by cbn; rewrite lookup_insert_eq).
  cbn. by rewrite !insert_insert_eq.
Qed.

Lemma Add_nil_map s x w :
  heap w !! s = Some (obj None) -> Add s x w = Panicked NilMapWrite.
Proof.
  intros Hs. unfold Add. unfold bind at 1.
  rewrite (on_mu_eq _ _ (obj None)) by done. cbn.
  unfold bind at 1, load at 1. cbn. by rewrite lookup_insert_eq.
Qed.

Lemma Remove_eq s x m w :
  heap w !! s = Some (obj (Some m)) ->
  Remove s x w = Returned (tt, set_heap (<[s := obj (Some (delete x m))]> (heap w)) w).
Proof.
  intros Hs. unfold Remove. unfold bind at 1.
  rewrite (on_mu_eq _ _ (obj (Some m))) by done. cbn.
  unfold bind at 1, load at 1. cbn. rewrite lookup_insert_eq. cbn.
  rewrite (on_mu_eq _ _ (set_members (Some (delete x m)) (set_mu {| writer := true; readers := 0 |} (obj (Some m)))))
    by (by cbn; rewrite lookup_insert_eq).
  cbn. by rewrite !insert_insert_eq.
Qed.

Lemma Clear_eq s m w :
  heap w !! s = Some (obj m) ->
  Clear s w = Returned (tt, set_heap (<[s := obj (Some ∅)]> (heap w)) w).
Proof.
  intros Hs. unfold Clear. unfold bind at 1.
  rewrite (on_mu_eq _ _ (obj m)) by done. cbn.
  unfold bind at 1, load at 1. cbn. rewrite lookup_insert_eq. cbn.
  rewrite (on_mu_eq _ _ (set_members (Some ∅) (set_mu {| writer := true; readers := 0 |} (obj m))))
    by (by cbn; rewrite lookup_insert_eq).
  cbn. by rewrite !insert_insert_eq.
Qed.

Lemma NewSet_eq w :
  exists r,
    NewSet w = Returned (r, set_heap (<[r := obj (Some ∅)]> (heap w)) w) /\
    heap w !! r = None.
Proof.
  exists (fresh (dom (heap w))). split; [done|].
  apply not_elem_of_dom, is_fresh.
Qed.

(** *** Loops that fill [result] *)

Lemma for_each_add_all (keep : T -> bool) (body : T -> Go unit)
    (r : loc) (h0 : gmap loc Set_) keys acc w :
  (forall k acc w,
      heap w !! r = Some (obj (Some acc)) ->
      (forall l, l <> r -> heap w !! l = h0 !! l) ->
      body k w =
      Returned (tt, set_heap (<[r := obj (Some (if keep k then <[k := tt]> acc else acc))]>
                                (heap w)) w)) ->
  heap w !! r = Some (obj (Some acc)) ->
  (forall l, l <> r -> heap w !! l = h0 !! l) ->
  for_each keys body w =
  Returned (tt, set_heap (<[r := obj (Some (add_all keep keys acc))]> (heap w)) w).
Proof.
  intros Hbody. revert acc w. induction keys as [|k keys IH]; intros acc w Hr Hout.
  - cbn. by rewrite insert_id, set_heap_id.
  - cbn [for_each]. unfold bind. rewrite (Hbody k acc w) by done.
    rewrite (IH (if keep k then <[k:=()]> acc else acc)).
    + cbn. by rewrite insert_insert_eq.
    + cbn. by rewrite lookup_insert_eq.
    + intros l Hl. cbn. rewrite lookup_insert_ne by done. by apply Hout.
Qed.

Lemma add_all_cons keep k keys acc :
  add_all keep (k :: keys) acc = add_all keep keys (if keep k then <[k := tt]> acc else acc).
Proof. done. Qed.

Lemma add_all_lookup keep keys acc k :
  is_Some (add_all keep keys acc !! k) <->
  is_Some (acc !! k) \/ (k ∈ keys /\ keep k = true).
Proof.
  revert acc. induction keys as [|k' keys IH]; intros acc.
  - cbn. split; [by left | intros [?|[?%elem_of_nil ?]]; done].
  - rewrite add_all_cons, IH, elem_of_cons. destruct (keep k') eqn:Hk'.
    + rewrite lookup_insert_is_Some.
      destruct (decide (k' = k)) as [->|Hne]; intuition (subst; auto; congruence).
    + intuition (subst; auto; congruence).
Qed.

Lemma add_all_dom keep keys :
  dom (add_all keep keys ∅) = list_to_set (List.filter keep keys).
Proof.
  apply set_eq. intros k. rewrite elem_of_dom, add_all_lookup, lookup_empty.
  rewrite elem_of_list_to_set, (list_elem_of_In (List.filter keep keys) k).
  rewrite filter_In, <- list_elem_of_In.
  split; [intros [[? [=]]|?]; done|by right].
Qed.

Lemma add_all_size keep keys :
  NoDup keys -> size (add_all keep keys ∅) = length (List.filter keep keys).
Proof.
  intros Hnd. rewrite <- size_dom, add_all_dom, size_list_to_set; [done|].
  apply NoDup_ListNoDup, List.NoDup_filter. by apply NoDup_ListNoDup.
Qed.

Lemma filter_partition_length {A} (keep : A -> bool) (l : list A) :
  length (List.filter keep l) + length (List.filter (fun k => negb (keep k)) l) = length l.
Proof.
  induction l as [|x l IH]; cbn; [done|]. destruct (keep x); cbn; lia.
Qed.

Lemma filter_set_length (keep : T -> bool) (l1 l2 : list T) :
  NoDup l1 -> NoDup l2 -> (forall k, k ∈ l1 <-> k ∈ l2) ->
  length (List.filter keep l1) = length (List.filter keep l2).
Proof.
  intros H1 H2 H12.
  assert (l1 ≡ₚ l2) as Hp by (by apply NoDup_Permutation).
  clear H1 H2 H12. induction Hp; cbn; try destruct (keep x); try destruct (keep y);
    cbn; congruence.
Qed.

(** *** The set algebra in closed form *)

(** The heap while [s] and then [other] are locked for reading. *)
Definition locked (s other : loc) (oa ob : Set_) (h : gmap loc Set_) : gmap loc Set_ :=
  <[other := rlocked (if decide (s = other) then rlocked oa else ob)]>
    (<[s := rlocked oa]> h).

Lemma locked_lookup_s s other oa ob h :
  exists oa', locked s other oa ob h !! s = Some oa' /\ members oa' = members oa.
Proof.
  unfold locked. destruct (decide (s = other)) as [<-|Hne].
  - rewrite lookup_insert_eq. by eexists.
  - rewrite lookup_insert_ne, lookup_insert_eq by done. by eexists.
Qed.

Lemma locked_lookup_other s other oa ob h :
  (s = other -> oa = ob) ->
  exists ob', locked s other oa ob h !! other = Some ob' /\ members ob' = members ob.
Proof.
  intros Hab. unfold locked. rewrite lookup_insert_eq. eexists. split; [done|].
  destruct (decide (s = other)) as [Hso|]; [|done]. by rewrite <- (Hab Hso).
Qed.

Lemma locked_lookup_ne s other oa ob h l :
  l <> s -> l <> other -> locked s other oa ob h !! l = h !! l.
Proof. intros Hs Ho. unfold locked. by rewrite !lookup_insert_ne. Qed.

Lemma lock_both {A} (k : Go A) s other oa ob w :
  heap w !! s = Some oa -> heap w !! other = Some ob ->
  writer (mu oa) = false -> writer (mu ob) = false ->
  (on_mu RLock s ;; on_mu RLock other ;; k) w =
  k (set_heap (locked s other oa ob (heap w)) w).
Proof.
  intros Hs Ho Hwa Hwb. unfold bind at 1. rewrite (on_mu_RLock s oa) by done.
  unfold bind at 1.
  rewrite (on_mu_RLock other (if decide (s = other) then rlocked oa else ob)).
  - done.
  - cbn. destruct (decide (s = other)) as [<-|Hne].
    + by rewrite lookup_insert_eq.
    + by rewrite lookup_insert_ne.
  - by destruct (decide (s = other)).
Qed.

Lemma unlock_both s other oa ob r E X (h : gmap loc Set_) n :
  h !! s = Some oa -> h !! other = Some ob ->
  writer (mu oa) = false -> writer (mu ob) = false ->
  h !! r = None ->
  (on_mu RUnlock other ;; on_mu RUnlock s ;; ret r)
    {| heap := <[r := X]> (locked s other oa ob (<[r := E]> h)); ranges := n |} =
  Returned (r, {| heap := <[r := X]> h; ranges := n |}).
Proof.
  intros Hs Ho Hwa Hwb Hr.
  assert (r <> s) as Hrs by congruence.
  assert (r <> other) as Hro by congruence.
  set (ob2 := if decide (s = other) then rlocked oa else ob).
  assert (writer (mu ob2) = false) as Hw2 by (subst ob2; by destruct (decide (s = other))).
  unfold bind at 1. rewrite (on_mu_RUnlock other ob2); [|cbn|done]; cycle 1.
  { rewrite lookup_insert_ne by done. unfold locked. by rewrite lookup_insert_eq. }
  unfold bind at 1. rewrite (on_mu_RUnlock s oa); [|cbn|done]; cycle 1.
  { subst ob2. unfold locked. destruct (decide (s = other)) as [<-|Hne].
    - by rewrite lookup_insert_eq.
    - rewrite !lookup_insert_ne, lookup_insert_eq by done. done. }
  unfold ret, set_heap. cbn. f_equal. f_equal. f_equal.
  apply map_eq. intros l. unfold locked.
  destruct (decide (l = s)) as [->|Hls].
  { by rewrite lookup_insert_eq, lookup_insert_ne, Hs. }
  rewrite (lookup_insert_ne _ s l) by done.
  destruct (decide (l = other)) as [->|Hlo].
  { rewrite lookup_insert_eq, lookup_insert_ne, Ho by done. subst ob2.
    by destruct (decide (s = other)) as [->|]. }
  rewrite (lookup_insert_ne _ other l) by done.
  destruct (decide (l = r)) as [->|Hlr].
  { by rewrite !lookup_insert_eq. }
  by rewrite !lookup_insert_ne.
Qed.

Lemma filter_body (keep : bool -> bool) other r (h0 : gmap loc Set_) k acc w ob' :
  r <> other ->
  h0 !! other = Some ob' ->
  heap w !! r = Some (obj (Some acc)) ->
  (forall l, l <> r -> heap w !! l = h0 !! l) ->
  (o' <- load other ;;
   if keep (exists_in (members o') k) then Add r k else ret tt) w =
  Returned (tt, set_heap (<[r := obj (Some (if keep (exists_in (members ob') k)
                                            then <[k := tt]> acc else acc))]>
                            (heap w)) w).
Proof.
  intros Hro Ho Hr Hout. unfold bind, load. rewrite Hout, Ho by done.
  destruct (keep _).
  - by apply Add_eq.
  - cbn. by rewrite insert_id, set_heap_id.
Qed.

Lemma Intersect_eq s other oa ob w :
  heap w !! s = Some oa -> heap w !! other = Some ob ->
  writer (mu oa) = false -> writer (mu ob) = false ->
  exists r keys,
    Intersect s other w =
    Returned (r, {| heap := <[r := obj (Some (add_all (exists_in (members ob)) keys ∅))]> (heap w);
                    ranges := S (ranges w) |}) /\
    heap w !! r = None /\
    NoDup keys /\
    (forall k, k ∈ keys <-> k ∈ keys_of (members oa)).
Proof.
  intros Hs Ho Hwa Hwb.
  destruct (NewSet_eq w) as (r & Hnew & Hr).
  assert (r <> s) as Hrs by congruence.
  assert (r <> other) as Hro by congruence.
  assert (s = other -> oa = ob) as Hab by (intros <-; congruence).
  set (h1 := <[r := obj (Some ∅)]> (heap w)).
  destruct (locked_lookup_s s other oa ob h1) as (oa' & Hoa' & Hma).
  destruct (locked_lookup_other s other oa ob h1 Hab) as (ob' & Hob' & Hmb).
  destruct (range_eq (members oa) (set_heap (locked s other oa ob h1) (set_heap h1 w)))
    as (keys & Hrange & Hnd & Hk & _).
  exists r, keys. split; [|done].
  unfold Intersect. unfold bind at 1. rewrite Hnew. cbv beta iota.
  rewrite (lock_both _ s other oa ob) by (cbn; rewrite ?lookup_insert_ne; done).
  cbn [heap set_heap]. fold h1.
  unfold bind at 1, load at 1. cbn [heap set_heap]. rewrite Hoa', Hma.
  unfold bind at 1. rewrite Hrange.
  unfold bind at 1.
  rewrite (for_each_add_all (exists_in (members ob)) _ r (locked s other oa ob h1) keys ∅).
  - cbn. by apply unlock_both.
  - intros k acc w' Hr' Hout. rewrite <- Hmb.
    by apply (filter_body (fun b => b) other r (locked s other oa ob h1)).
  - cbn. rewrite locked_lookup_ne by done. apply lookup_insert_eq.
  - done.
Qed.

Lemma Difference_eq s other oa ob w :
  heap w !! s = Some oa -> heap w !! other = Some ob ->
  writer (mu oa) = false -> writer (mu ob) = false ->
  exists r keys,
    Difference s other w =
    Returned (r, {| heap := <[r := obj (Some (add_all (fun k => negb (exists_in (members ob) k))
                                                      keys ∅))]> (heap w);
                    ranges := S (ranges w) |}) /\
    heap w !! r = None /\
    NoDup keys /\
    (forall k, k ∈ keys <-> k ∈ keys_of (members oa)).
Proof.
  intros Hs Ho Hwa Hwb.
  destruct (NewSet_eq w) as (r & Hnew & Hr).
  assert (r <> s) as Hrs by congruence.
  assert (r <> other) as Hro by congruence.
  assert (s = other -> oa = ob) as Hab by (intros <-; congruence).
  set (h1 := <[r := obj (Some ∅)]> (heap w)).
  destruct (locked_lookup_s s other oa ob h1) as (oa' & Hoa' & Hma).
  destruct (locked_lookup_other s other oa ob h1 Hab) as (ob' & Hob' & Hmb).
  destruct (range_eq (members oa) (set_heap (locked s other oa ob h1) (set_heap h1 w)))
    as (keys & Hrange & Hnd & Hk & _).
  exists r, keys. split; [|done].
  unfold Difference. unfold bind at 1. rewrite Hnew. cbv beta iota.
  rewrite (lock_both _ s other oa ob) by (cbn; rewrite ?lookup_insert_ne; done).
  cbn [heap set_heap]. fold h1.
  unfold bind at 1, load at 1. cbn [heap set_heap]. rewrite Hoa', Hma.
  unfold bind at 1. rewrite Hrange.
  unfold bind at 1.
  rewrite (for_each_add_all (fun k => negb (exists_in (members ob) k)) _ r
             (locked s other oa ob h1) keys ∅).
  - cbn. by apply unlock_both.
  - intros k acc w' Hr' Hout. rewrite <- Hmb.
    by apply (filter_body negb other r (locked s other oa ob h1)).
  - cbn. rewrite locked_lookup_ne by done. apply lookup_insert_eq.
  - done.
Qed.

Lemma Union_eq s other oa ob w :
  heap w !! s = Some oa -> heap w !! other = Some ob ->
  writer (mu oa) = false -> writer (mu ob) = false ->
  exists r keys keys',
    Union s other w =
    Returned (r, {| heap := <[r := obj (Some (add_all (fun _ => true) keys'
                                                (add_all (fun _ => true) keys ∅)))]> (heap w);
                    ranges := S (S (ranges w)) |}) /\
    heap w !! r = None /\
    (forall k, k ∈ keys <-> k ∈ keys_of (members oa)) /\
    (forall k, k ∈ keys' <-> k ∈ keys_of (members ob)).
Proof.
  intros Hs Ho Hwa Hwb.
  destruct (NewSet_eq w) as (r & Hnew & Hr).
  assert (r <> s) as Hrs by congruence.
  assert (r <> other) as Hro by congruence.
  assert (s = other -> oa = ob) as Hab by (intros <-; congruence).
  set (h1 := <[r := obj (Some ∅)]> (heap w)).
  set (hL := locked s other oa ob h1).
  destruct (locked_lookup_s s other oa ob h1) as (oa' & Hoa' & Hma).
  destruct (locked_lookup_other s other oa ob h1 Hab) as (ob' & Hob' & Hmb).
  fold hL in Hoa', Hob'.
  destruct (range_eq (members oa) (set_heap hL (set_heap h1 w)))
    as (keys & Hrange & _ & Hk & _).
  set (acc1 := add_all (fun _ => true) keys ∅).
  destruct (range_eq (members ob)
              {| heap := <[r := obj (Some acc1)]> hL; ranges := S (ranges w) |})
    as (keys' & Hrange' & _ & Hk' & _).
  exists r, keys, keys'. split; [|done].
  unfold Union. unfold bind at 1. rewrite Hnew. cbv beta iota.
  rewrite (lock_both _ s other oa ob) by (cbn; rewrite ?lookup_insert_ne; done).
  cbn [heap set_heap]. fold h1. fold hL.
  unfold bind at 1, load at 1. cbn [heap set_heap]. rewrite Hoa', Hma.
  unfold bind at 1. rewrite Hrange.
  unfold bind at 1.
  rewrite (for_each_add_all (fun _ => true) _ r hL keys ∅); cycle 1.
  { intros k acc w' Hr' Hout. by apply Add_eq. }
  { cbn. unfold hL. rewrite locked_lookup_ne by done. apply lookup_insert_eq. }
  { done. }
  fold acc1. unfold bind at 1, load at 1. cbn [heap set_heap].
  rewrite lookup_insert_ne, Hob', Hmb by done.
  unfold bind at 1. unfold set_heap. cbn [heap ranges] in Hrange' |- *. rewrite Hrange'.
  unfold bind at 1.
  rewrite (for_each_add_all (fun _ => true) _ r (<[r := obj (Some acc1)]> hL) keys' acc1); cycle 1.
  { intros k acc w' Hr' Hout. by apply Add_eq. }
  { cbn. apply lookup_insert_eq. }
  { done. }
  cbn. rewrite insert_insert_eq. by apply unlock_both.
Qed.

(** *** The claims on the set algebra *)

Lemma NoDup_length_size (keys : list T) (X : gset T) :
  NoDup keys -> (forall k, k ∈ keys <-> k ∈ X) -> length keys = size X.
Proof.
  intros Hnd Hk. rewrite <- (size_list_to_set (C := gset T) keys) by done.
  f_equal. apply set_eq. intros k. by rewrite elem_of_list_to_set.
Qed.

(** C6: for two sets that nobody holds locked for writing, the number of
    members of the intersection plus the number of members of the difference
    is the number of members of the first set. *)
Theorem Intersect_Difference_partition (a b : loc) (oa ob : Set_) (w : world) :
  heap w !! a = Some oa -> heap w !! b = Some ob ->
  writer (mu oa) = false -> writer (mu ob) = false ->
  exists ni nd na w',
    partition_sizes a b w = Returned ((ni, nd, na), w') /\
    ni + nd = na.
Proof.
  intros Ha Hb Hwa Hwb.
  destruct (Intersect_eq a b oa ob w Ha Hb Hwa Hwb) as (i & keys1 & Hi & Hfi & Hnd1 & Hk1).
  set (I := add_all (exists_in (members ob)) keys1 ∅) in Hi.
  set (w1 := {| heap := <[i := obj (Some I)]> (heap w); ranges := S (ranges w) |}) in Hi.
  assert (i <> a) as Hia by congruence. assert (i <> b) as Hib by congruence.
  destruct (Difference_eq a b oa ob w1) as (d & keys2 & Hd & Hfd & Hnd2 & Hk2);
    [by cbn; rewrite lookup_insert_ne..|done|done|].
  set (D := add_all (fun k => negb (exists_in (members ob) k)) keys2 ∅) in Hd.
  set (w2 := {| heap := <[d := obj (Some D)]> (heap w1); ranges := S (ranges w1) |}) in Hd.
  assert (d <> i) as Hdi by (intros ->; cbn in Hfd; by rewrite lookup_insert_eq in Hfd).
  assert (d <> a) as Hda
    by (intros ->; cbn in Hfd; rewrite lookup_insert_ne in Hfd by done; congruence).
  destruct (Members_eq i (obj (Some I)) w2) as (mi & Hmi & _ & _ & Hli);
    [by cbn; rewrite lookup_insert_ne, lookup_insert_eq|done|].
  set (w3 := {| heap := heap w2; ranges := S (ranges w2) |}) in Hmi.
  destruct (Members_eq d (obj (Some D)) w3) as (md & Hmd & _ & _ & Hld);
    [by cbn; rewrite lookup_insert_eq|done|].
  set (w4 := {| heap := heap w3; ranges := S (ranges w3) |}) in Hmd.
  destruct (Members_eq a oa w4) as (ma & Hma & _ & _ & Hla);
    [by cbn; rewrite !lookup_insert_ne|done|].
  eexists _, _, _, _. split.
  - unfold partition_sizes, bind. by rewrite Hi, Hd, Hmi, Hmd, Hma.
  - rewrite Hli, Hld, Hla. cbn. rewrite !size_dom.
    unfold I, D. rewrite !add_all_size by done.
    rewrite (filter_set_length _ keys2 keys1) by (try done; intros k; by rewrite Hk1, Hk2).
    rewrite filter_partition_length. by apply NoDup_length_size.
Qed.

Lemma Add_after_new r m a b (w w' : world) :
  heap w' !! r = Some (obj (Some m)) ->
  r <> a -> r <> b ->
  heap w' !! a = heap w !! a -> heap w' !! b = heap w !! b ->
  forall x, exists w'',
    Add r x w' = Returned (tt, w'') /\
    heap w'' !! a = heap w !! a /\
    heap w'' !! b = heap w !! b.
Proof.
  intros Hr Hra Hrb Ha Hb x. eexists. split; [by apply Add_eq|].
  cbn. by rewrite !lookup_insert_ne.
Qed.

(** C8: for two sets that nobody holds locked for writing, [Intersect],
    [Union] and [Difference] each return a pointer to a new object, at an
    address that held nothing before, and leave every other object as it was,
    the two sets among them: their members and their locks.  A later [Add] to
    the result changes neither of the two. *)
Theorem set_algebra_returns_new_Set (a b : loc) (oa ob : Set_) (w : world) :
  heap w !! a = Some oa -> heap w !! b = Some ob ->
  writer (mu oa) = false -> writer (mu ob) = false ->
  returns_new_Set (Intersect a b) a b w /\
  returns_new_Set (Union a b) a b w /\
  returns_new_Set (Difference a b) a b w.
Proof.
  intros Ha Hb Hwa Hwb.
  destruct (Intersect_eq a b oa ob w Ha Hb Hwa Hwb) as (ri & ki & Hi & Hfi & _).
  destruct (Union_eq a b oa ob w Ha Hb Hwa Hwb) as (ru & ku & ku' & Hu & Hfu & _).
  destruct (Difference_eq a b oa ob w Ha Hb Hwa Hwb) as (rd & kd & Hd & Hfd & _).
  split; [|split].
  - assert (ri <> a) by congruence. assert (ri <> b) by congruence.
    eexists _, _. split; [exact Hi|]. do 3 (split; [done|]). cbn.
    split; [eexists; apply lookup_insert_eq|].
    split; [intros l Hl; by rewrite lookup_insert_ne|].
    split; [by rewrite lookup_insert_ne|]. split; [by rewrite lookup_insert_ne|].
    eapply Add_after_new; [apply lookup_insert_eq|done|done|..]; cbn; by rewrite lookup_insert_ne.
  - assert (ru <> a) by congruence. assert (ru <> b) by congruence.
    eexists _, _. split; [exact Hu|]. do 3 (split; [done|]). cbn.
    split; [eexists; apply lookup_insert_eq|].
    split; [intros l Hl; by rewrite lookup_insert_ne|].
    split; [by rewrite lookup_insert_ne|]. split; [by rewrite lookup_insert_ne|].
    eapply Add_after_new; [apply lookup_insert_eq|done|done|..]; cbn; by rewrite lookup_insert_ne.
  - assert (rd <> a) by congruence. assert (rd <> b) by congruence.
    eexists _, _. split; [exact Hd|]. do 3 (split; [done|]). cbn.
    split; [eexists; apply lookup_insert_eq|].
    split; [intros l Hl; by rewrite lookup_insert_ne|].
    split; [by rewrite lookup_insert_ne|]. split; [by rewrite lookup_insert_ne|].
    eapply Add_after_new; [apply lookup_insert_eq|done|done|..]; cbn; by rewrite lookup_insert_ne.
Qed.

(** *** The claim on [Size] *)

Lemma size_insert_present (m : gmap T ()) x :
  is_Some (m !! x) -> size (<[x := tt]> m) = size m.
Proof. intros [[] Hx]. by rewrite insert_id. Qed.

Lemma size_delete_present (m : gmap T ()) x :
  is_Some (m !! x) -> S (size (delete x m)) = size m.
Proof.
  intros [[] Hx]. rewrite <- (insert_delete_id m x tt Hx) at 2.
  by rewrite map_size_insert_None by apply lookup_delete_eq.
Qed.

Lemma tally_eq s os added removed m w :
  heap w !! s = Some (obj (Some m)) ->
  size m + removed = added ->
  exists added' removed' m' w',
    tally s os added removed w = Returned ((added', removed'), w') /\
    calls s os w = Returned (tt, w') /\
    heap w' !! s = Some (obj (Some m')) /\
    size m' + removed' = added'.
Proof.
  revert added removed m w.
  induction os as [|[x|x|] os IH]; intros added removed m w Hs Hn.
  - by exists added, removed, m, w.
  - set (w1 := set_heap (<[s := obj (Some (<[x := tt]> m))]> (heap w)) w).
    destruct (IH (if exists_in (Some m) x then added else S added) removed
                (<[x := tt]> m) w1) as (a' & r' & m' & w' & Ht & Hc & Hs' & Hn').
    { cbn. apply lookup_insert_eq. }
    { cbn. case_bool_decide as Hx.
      - by rewrite size_insert_present.
      - rewrite map_size_insert_None; [lia|]. by apply eq_None_not_Some. }
    exists a', r', m', w'. split; [|split; [|done]].
    + cbn [tally]. unfold bind. rewrite (Contains_eq s x (obj (Some m))) by done.
      by rewrite (Add_eq s x m).
    + cbn [calls call]. unfold bind. by rewrite (Add_eq s x m).
  - set (w1 := set_heap (<[s := obj (Some (delete x m))]> (heap w)) w).
    destruct (IH added (if exists_in (Some m) x then S removed else removed)
                (delete x m) w1) as (a' & r' & m' & w' & Ht & Hc & Hs' & Hn').
    { cbn. apply lookup_insert_eq. }
    { cbn. case_bool_decide as Hx.
      - pose proof (size_delete_present m x Hx). lia.
      - rewrite map_size_delete_None; [lia|]. by apply eq_None_not_Some. }
    exists a', r', m', w'. split; [|split; [|done]].
    + cbn [tally]. unfold bind. rewrite (Contains_eq s x (obj (Some m))) by done.
      by rewrite (Remove_eq s x m).
    + cbn [calls call]. unfold bind. by rewrite (Remove_eq s x m).
  - set (w1 := set_heap (<[s := obj (Some ∅)]> (heap w)) w).
    destruct (IH 0 0 ∅ w1) as (a' & r' & m' & w' & Ht & Hc & Hs' & Hn').
    { cbn. apply lookup_insert_eq. }
    { by rewrite map_size_empty. }
    exists a', r', m', w'. split; [|split; [|done]].
    + cbn [tally]. unfold bind. by rewrite (Clear_eq s (Some m)).
    + cbn [calls call]. unfold bind. by rewrite (Clear_eq s (Some m)).
Qed.

(** C2, as amended: after any calls of [Add], [Remove] and [Clear] on a new
    set, [Size] returns the number of calls of [Add] since the last [Clear]
    that put in an element that was not in the set, minus the number of calls
    of [Remove] since then that took out an element that was in it. *)
Theorem Size_counts_effective_calls (w : world) (os : list op) :
  exists s w1 added removed w2 n,
    NewSet w = Returned (s, w1) /\
    tally s os 0 0 w1 = Returned ((added, removed), w2) /\
    calls s os w1 = Returned (tt, w2) /\
    Size s w2 = Returned (n, w2) /\
    removed <= added /\
    n = added - removed.
Proof.
  destruct (NewSet_eq w) as (s & Hnew & _).
  destruct (tally_eq s os 0 0 ∅ (set_heap (<[s := obj (Some ∅)]> (heap w)) w))
    as (a & r & m & w2 & Ht & Hc & Hs & Hn).
  { cbn. apply lookup_insert_eq. }
  { by rewrite map_size_empty. }
  exists s, (set_heap (<[s := obj (Some ∅)]> (heap w)) w), a, r, w2, (size m).
  split; [done|]. split; [done|]. split; [done|]. split; [|lia].
  rewrite (Size_eq s (obj (Some m))) by done. cbn. by rewrite size_dom.
Qed.

(** *** Further properties of the methods *)

Lemma obj_eta (o : Set_) : mu o = unlocked -> o = obj (members o).
Proof. destruct o as [m k]. cbn. by intros ->. Qed.

Lemma Remove_nil_map s x w :
  heap w !! s = Some (obj None) -> Remove s x w = Returned (tt, w).
Proof.
  intros Hs. unfold Remove. unfold bind at 1.
  rewrite (on_mu_eq _ _ (obj None)) by done. cbn.
  unfold bind at 1, load at 1. cbn. rewrite lookup_insert_eq. cbn.
  rewrite (on_mu_eq _ _ (set_mu {| writer := true; readers := 0 |} (obj None)))
    by (by cbn; rewrite lookup_insert_eq).
  cbn. unfold set_heap. cbn. rewrite insert_insert_eq.
  fold (obj None). rewrite insert_id by done. by destruct w.
Qed.

Lemma exists_in_keys_of mo x : exists_in mo x = true <-> x ∈ keys_of mo.
Proof.
  destruct mo as [m|]; cbn.
  - by rewrite bool_decide_eq_true, elem_of_dom.
  - split; [done|]. by intros ?%not_elem_of_empty.
Qed.

Lemma exists_in_bool_decide mo x : exists_in mo x = bool_decide (x ∈ keys_of mo).
Proof.
  apply eq_true_iff_eq. by rewrite exists_in_keys_of, bool_decide_eq_true.
Qed.

Lemma insert_present (m : gmap T ()) x : is_Some (m !! x) -> <[x := tt]> m = m.
Proof. intros [[] Hx]. by apply insert_id. Qed.

(** X8: [Add(x)] on a set made by [NewSet] puts [x] in: [Contains(x)] is
    true afterwards, [Contains] of every other element is as before, and
    [Size] is one more than before when [x] was not in the set.  When [x] was
    in the set already nothing changes at all.  No other set is touched. *)
Theorem Add_puts_one_element_in (s : loc) (x : T) (m : gmap T ()) (w : world) :
  heap w !! s = Some (obj (Some m)) ->
  exists w' b n,
    Add s x w = Returned (tt, w') /\
    Contains s x w = Returned (b, w) /\
    Size s w = Returned (n, w) /\
    Contains s x w' = Returned (true, w') /\
    Size s w' = Returned (if b then n else S n, w') /\
    (b = true -> w' = w) /\
    (forall y, y <> x ->
       exists c, Contains s y w = Returned (c, w) /\ Contains s y w' = Returned (c, w')) /\
    (forall l, l <> s -> heap w' !! l = heap w !! l).
Proof.
  intros Hs.
  set (w' := set_heap (<[s := obj (Some (<[x := tt]> m))]> (heap w)) w).
  assert (heap w' !! s = Some (obj (Some (<[x := tt]> m)))) as Hs'
    by (cbn; apply lookup_insert_eq).
  exists w', (exists_in (Some m) x), (size m).
  split; [by apply Add_eq|].
  split; [by rewrite (Contains_eq s x (obj (Some m)))|].
  split; [by rewrite (Size_eq s (obj (Some m))); cbn; rewrite ?size_dom|].
  split.
  { rewrite (Contains_eq s x (obj (Some (<[x := tt]> m)))) by done. cbn.
    by rewrite lookup_insert_eq, bool_decide_true. }
  split.
  { rewrite (Size_eq s (obj (Some (<[x := tt]> m)))) by done. cbn.
    rewrite size_dom. case_bool_decide as Hx.
    - by rewrite size_insert_present.
    - rewrite map_size_insert_None; [done|]. by apply eq_None_not_Some. }
  split.
  { cbn. intros Hx%bool_decide_eq_true. unfold w'.
    by rewrite insert_present, insert_id, set_heap_id. }
  split.
  { intros y Hy. exists (exists_in (Some m) y).
    rewrite (Contains_eq s y (obj (Some m))) by done.
    rewrite (Contains_eq s y (obj (Some (<[x := tt]> m)))) by done.
    split; [done|]. cbn. by rewrite lookup_insert_ne. }
  intros l Hl. cbn. by rewrite lookup_insert_ne.
Qed.

(** X9: [Remove(x)] takes [x] out: [Contains(x)] is false afterwards,
    [Contains] of every other element is as before, and [Size] is one less
    than before when [x] was in the set.  When [x] was not in the set nothing
    changes at all; this is also so on the zero value, with its nil map. *)
Theorem Remove_takes_one_element_out (s : loc) (x : T) (mo : option (gmap T ())) (w : world) :
  heap w !! s = Some (obj mo) ->
  exists w' b n,
    Remove s x w = Returned (tt, w') /\
    Contains s x w = Returned (b, w) /\
    Size s w = Returned (n, w) /\
    Contains s x w' = Returned (false, w') /\
    Size s w' = Returned (if b then pred n else n, w') /\
    (b = false -> w' = w) /\
    (forall y, y <> x ->
       exists c, Contains s y w = Returned (c, w) /\ Contains s y w' = Returned (c, w')) /\
    (forall l, l <> s -> heap w' !! l = heap w !! l).
Proof.
  intros Hs. destruct mo as [m|].
  - set (w' := set_heap (<[s := obj (Some (delete x m))]> (heap w)) w).
    assert (heap w' !! s = Some (obj (Some (delete x m)))) as Hs'
      by (cbn; apply lookup_insert_eq).
    exists w', (exists_in (Some m) x), (size m).
    split; [by apply Remove_eq|].
    split; [by rewrite (Contains_eq s x (obj (Some m)))|].
    split; [by rewrite (Size_eq s (obj (Some m))); cbn; rewrite ?size_dom|].
    split.
    { rewrite (Contains_eq s x (obj (Some (delete x m)))) by done. cbn.
      rewrite lookup_delete_eq, bool_decide_false; [done|]. by intros [? [=]]. }
    split.
    { rewrite (Size_eq s (obj (Some (delete x m)))) by done. cbn.
      rewrite size_dom. case_bool_decide as Hx.
      - by rewrite map_size_delete_Some.
      - rewrite map_size_delete_None; [done|]. by apply eq_None_not_Some. }
    split.
    { cbn. intros Hx%bool_decide_eq_false. unfold w'.
      rewrite delete_id by (by apply eq_None_not_Some).
      by rewrite insert_id, set_heap_id. }
    split.
    { intros y Hy. exists (exists_in (Some m) y).
      rewrite (Contains_eq s y (obj (Some m))) by done.
      rewrite (Contains_eq s y (obj (Some (delete x m)))) by done.
      split; [done|]. cbn. by rewrite lookup_delete_ne. }
    intros l Hl. cbn. by rewrite lookup_insert_ne.
  - exists w, false, 0.
    split; [by apply Remove_nil_map|].
    split; [by rewrite (Contains_eq s x (obj None))|].
    split; [by rewrite (Size_eq s (obj None))|].
    split; [by rewrite (Contains_eq s x (obj None))|].
    split; [by rewrite (Size_eq s (obj None))|].
    split; [done|]. split; [|done].
    intros y Hy. exists false. by rewrite (Contains_eq s y (obj None)).
Qed.

(** X10: [Members] returns each member once: a list without duplicates, as
    long as what [Size] returns, holding exactly the elements for which
    [Contains] is true.  It changes no set. *)
Theorem Members_lists_each_member_once (s : loc) (o : Set_) (w : world) :
  heap w !! s = Some o ->
  writer (mu o) = false ->
  exists keys w',
    Members s w = Returned (keys, w') /\
    heap w' = heap w /\
    NoDup keys /\
    Size s w = Returned (length keys, w) /\
    (forall x, Contains s x w = Returned (bool_decide (x ∈ keys), w)).
Proof.
  intros Hs Hw. destruct (Members_eq s o w Hs Hw) as (keys & Hm & Hnd & Hk & Hl).
  eexists keys, _. split; [exact Hm|]. split; [done|]. split; [done|].
  split; [by rewrite (Size_eq s o), Hl|].
  intros x. rewrite (Contains_eq s x o), exists_in_bool_decide by done.
  do 2 f_equal. apply bool_decide_ext. by rewrite Hk.
Qed.

(** X11: [Clear] empties the set: afterwards [Size] is 0, [Contains] is
    false for every element, and [Add] works, also when the set was the zero
    value with its nil map.  No other set is touched. *)
Theorem Clear_empties_the_set (s : loc) (mo : option (gmap T ())) (w : world) :
  heap w !! s = Some (obj mo) ->
  exists w',
    Clear s w = Returned (tt, w') /\
    Size s w' = Returned (0, w') /\
    (forall x, Contains s x w' = Returned (false, w')) /\
    (forall x, exists w'',
        Add s x w' = Returned (tt, w'') /\ Contains s x w'' = Returned (true, w'')) /\
    (forall l, l <> s -> heap w' !! l = heap w !! l).
Proof.
  intros Hs.
  set (w' := set_heap (<[s := obj (Some ∅)]> (heap w)) w).
  assert (heap w' !! s = Some (obj (Some ∅))) as Hs' by (cbn; apply lookup_insert_eq).
  exists w'. split; [by apply (Clear_eq s mo)|].
  split; [by rewrite (Size_eq s (obj (Some ∅)))|].
  split; [intros x; by rewrite (Contains_eq s x (obj (Some ∅)))|].
  split.
  - intros x. eexists. split; [by apply Add_eq|].
    rewrite (Contains_eq s x (obj (Some (<[x := tt]> ∅))))
      by (first [done | cbn; apply lookup_insert_eq]).
    cbn. by rewrite lookup_insert_eq, bool_decide_true.
  - intros l Hl. cbn. by rewrite lookup_insert_ne.
Qed.

(** *** Further properties of the set algebra *)

Lemma exists_in_add_all keep (keys : list T) acc x :
  exists_in (Some (add_all keep keys acc)) x =
  exists_in (Some acc) x || (bool_decide (x ∈ keys) && keep x).
Proof.
  apply eq_true_iff_eq. cbn.
  rewrite orb_true_iff, andb_true_iff, !bool_decide_eq_true.
  apply add_all_lookup.
Qed.

Lemma exists_in_empty x : exists_in (Some ∅) x = false.
Proof. cbn. apply bool_decide_false. rewrite lookup_empty. by intros [? [=]]. Qed.

Lemma bool_decide_keys (keys : list T) mo x :
  (forall k, k ∈ keys <-> k ∈ keys_of mo) -> bool_decide (x ∈ keys) = exists_in mo x.
Proof.
  intros Hk. rewrite exists_in_bool_decide. apply bool_decide_ext. apply Hk.
Qed.

(** X12: [Intersect] returns a set that holds an element exactly when both
    operands hold it; the operands may be one and the same set. *)
Theorem Intersect_holds_the_common_members (a b : loc) (oa ob : Set_) (w : world) :
  heap w !! a = Some oa -> heap w !! b = Some ob ->
  writer (mu oa) = false -> writer (mu ob) = false ->
  exists r w',
    Intersect a b w = Returned (r, w') /\
    forall x, exists ca cb,
      Contains a x w = Returned (ca, w) /\
      Contains b x w = Returned (cb, w) /\
      Contains r x w' = Returned (ca && cb, w').
Proof.
  intros Ha Hb Hwa Hwb.
  destruct (Intersect_eq a b oa ob w Ha Hb Hwa Hwb) as (r & keys & Hi & Hr & _ & Hk).
  eexists r, _. split; [exact Hi|]. intros x.
  exists (exists_in (members oa) x), (exists_in (members ob) x).
  split; [by apply Contains_eq|]. split; [by apply Contains_eq|].
  erewrite Contains_eq; [|cbn; apply lookup_insert_eq|done].
  cbn [members obj]. by rewrite exists_in_add_all, exists_in_empty, (bool_decide_keys _ (members oa)).
Qed.

(** X13: [Union] returns a set that holds an element exactly when one of the
    operands holds it. *)
Theorem Union_holds_the_members_of_both (a b : loc) (oa ob : Set_) (w : world) :
  heap w !! a = Some oa -> heap w !! b = Some ob ->
  writer (mu oa) = false -> writer (mu ob) = false ->
  exists r w',
    Union a b w = Returned (r, w') /\
    forall x, exists ca cb,
      Contains a x w = Returned (ca, w) /\
      Contains b x w = Returned (cb, w) /\
      Contains r x w' = Returned (ca || cb, w').
Proof.
  intros Ha Hb Hwa Hwb.
  destruct (Union_eq a b oa ob w Ha Hb Hwa Hwb) as (r & keys & keys' & Hu & Hr & Hk & Hk').
  eexists r, _. split; [exact Hu|]. intros x.
  exists (exists_in (members oa) x), (exists_in (members ob) x).
  split; [by apply Contains_eq|]. split; [by apply Contains_eq|].
  erewrite Contains_eq; [|cbn; apply lookup_insert_eq|done].
  cbn [members obj]. rewrite !exists_in_add_all, exists_in_empty, !andb_true_r.
  by rewrite (bool_decide_keys _ (members oa)), (bool_decide_keys _ (members ob)).
Qed.

(** X14: [Difference] returns a set that holds an element exactly when the
    receiver holds it and the other set does not; of a set and itself it is
    empty. *)
Theorem Difference_holds_the_members_of_the_receiver_only
    (a b : loc) (oa ob : Set_) (w : world) :
  heap w !! a = Some oa -> heap w !! b = Some ob ->
  writer (mu oa) = false -> writer (mu ob) = false ->
  exists r w',
    Difference a b w = Returned (r, w') /\
    forall x, exists ca cb,
      Contains a x w = Returned (ca, w) /\
      Contains b x w = Returned (cb, w) /\
      Contains r x w' = Returned (ca && negb cb, w').
Proof.
  intros Ha Hb Hwa Hwb.
  destruct (Difference_eq a b oa ob w Ha Hb Hwa Hwb) as (r & keys & Hd & Hr & _ & Hk).
  eexists r, _. split; [exact Hd|]. intros x.
  exists (exists_in (members oa) x), (exists_in (members ob) x).
  split; [by apply Contains_eq|]. split; [by apply Contains_eq|].
  erewrite Contains_eq; [|cbn; apply lookup_insert_eq|done].
  cbn [members obj]. by rewrite exists_in_add_all, exists_in_empty, (bool_decide_keys _ (members oa)).
Qed.

(** The four numbers of inclusion and exclusion. *)
Definition union_sizes (a b : loc) : Go (nat * nat * nat * nat) :=
  u <- Union a b ;;
  i <- Intersect a b ;;
  nu <- Size u ;;
  ni <- Size i ;;
  na <- Size a ;;
  nb <- Size b ;;
  ret (nu, ni, na, nb).

Lemma size_union_intersection (X Y : gset T) :
  size (X ∪ Y) + size (X ∩ Y) = size X + size Y.
Proof.
  assert (size Y = size (X ∩ Y) + size (Y ∖ X)) as HY.
  { rewrite <- (size_union (C := gset T)).
    - f_equal. apply set_eq. intros k.
      rewrite elem_of_union, elem_of_intersection, elem_of_difference.
      destruct (decide (k ∈ X)); tauto.
    - intros k. rewrite elem_of_intersection, elem_of_difference. tauto. }
  rewrite (size_union_alt (C := gset T)). lia.
Qed.

(** X15: the sizes of union and intersection add up to the sizes of the two
    sets: [Size] of [Union] plus [Size] of [Intersect] is [Size] of the
    receiver plus [Size] of the other set. *)
Theorem Union_Intersect_sizes (a b : loc) (oa ob : Set_) (w : world) :
  heap w !! a = Some oa -> heap w !! b = Some ob ->
  writer (mu oa) = false -> writer (mu ob) = false ->
  exists nu ni na nb w',
    union_sizes a b w = Returned ((nu, ni, na, nb), w') /\
    nu + ni = na + nb.
Proof.
  intros Ha Hb Hwa Hwb.
  destruct (Union_eq a b oa ob w Ha Hb Hwa Hwb) as (u & ku & ku' & Hu & Hfu & Hk & Hk').
  set (U := add_all (fun _ => true) ku' (add_all (fun _ => true) ku ∅)) in Hu.
  set (w1 := {| heap := <[u := obj (Some U)]> (heap w); ranges := S (S (ranges w)) |}) in Hu.
  assert (u <> a) as Hua by congruence. assert (u <> b) as Hub by congruence.
  destruct (Intersect_eq a b oa ob w1) as (i & ki & Hi & Hfi & _ & Hki);
    [by cbn; rewrite lookup_insert_ne..|done|done|].
  set (I := add_all (exists_in (members ob)) ki ∅) in Hi.
  set (w2 := {| heap := <[i := obj (Some I)]> (heap w1); ranges := S (ranges w1) |}) in Hi.
  assert (i <> u) as Hiu by (intros ->; cbn in Hfi; by rewrite lookup_insert_eq in Hfi).
  assert (i <> a) as Hia
    by (intros ->; cbn in Hfi; rewrite lookup_insert_ne in Hfi by done; congruence).
  assert (i <> b) as Hib
    by (intros ->; cbn in Hfi; rewrite lookup_insert_ne in Hfi by done; congruence).
  exists (size (dom U)), (size (dom I)), (size (keys_of (members oa))),
         (size (keys_of (members ob))), w2.
  split.
  - unfold union_sizes, bind. rewrite Hu, Hi.
    rewrite (Size_eq u (obj (Some U))) by (first [done | cbn; by rewrite lookup_insert_ne, lookup_insert_eq]).
    rewrite (Size_eq i (obj (Some I))) by (first [done | cbn; by rewrite lookup_insert_eq]).
    rewrite (Size_eq a oa) by (first [done | cbn; by rewrite !lookup_insert_ne]).
    by rewrite (Size_eq b ob) by (first [done | cbn; by rewrite !lookup_insert_ne]).
  - assert (dom U = keys_of (members oa) ∪ keys_of (members ob)) as ->.
    { apply set_eq. intros k. unfold U.
      rewrite elem_of_dom, !add_all_lookup, lookup_empty, elem_of_union, <- Hk, <- Hk'.
      split; [intros [[[? [=]]|[? _]]|[? _]]; tauto | intros [?|?]; tauto]. }
    assert (dom I = keys_of (members oa) ∩ keys_of (members ob)) as ->.
    { apply set_eq. intros k. unfold I.
      rewrite elem_of_dom, add_all_lookup, lookup_empty, elem_of_intersection.
      rewrite exists_in_keys_of, <- (Hki k).
      split; [intros [[? [=]]|?]; done | by right]. }
    apply size_union_intersection.
Qed.

(** *** Locks *)

(** No lock is held on any set. *)
Definition idle (w : world) : Prop :=
  forall l o, heap w !! l = Some o -> mu o = unlocked.

(** The sets a call works on. *)
Definition operands (m : method) : list loc :=
  match m with
  | MNewSet => []
  | MMembers s | MAdd s _ | MRemove s _ | MContains s _ | MSize s | MClear s => [s]
  | MIntersect s other | MUnion s other | MDifference s other => [s; other]
  end.

Lemma idle_insert (h : gmap loc Set_) n n' l mo :
  idle {| heap := h; ranges := n |} ->
  idle {| heap := <[l := obj mo]> h; ranges := n' |}.
Proof.
  intros Hw l' o. cbn. rewrite lookup_insert. case_decide.
  - by intros [= <-].
  - apply Hw.
Qed.

Lemma idle_ranges (h : gmap loc Set_) n n' :
  idle {| heap := h; ranges := n |} -> idle {| heap := h; ranges := n' |}.
Proof. intros Hw l o. apply Hw. Qed.

Lemma bind_Returned {A B} (m : Go A) (k : A -> Go B) a w w' :
  m w = Returned (a, w') -> bind m k w = k a w'.
Proof. intros Hm. unfold bind. by rewrite Hm. Qed.

(** X16: when no lock is held, every call on sets that exist returns,
    without waiting for a lock, and leaves no lock held and every set in
    existence; but for [Add] on a zero value, which panics on its nil map.  So
    [Intersect], [Union] and [Difference] can take one set twice, and can call
    [Add] on their result while they hold the read locks. *)
Theorem calls_leave_no_lock_held (m : method) (w : world) :
  idle w ->
  Forall (fun l => is_Some (heap w !! l)) (operands m) ->
  (exists r w',
      invoke m w = Returned (r, w') /\
      idle w' /\
      forall l, is_Some (heap w !! l) -> is_Some (heap w' !! l)) \/
  (exists s x,
      m = MAdd s x /\
      heap w !! s = Some (obj None) /\
      invoke m w = Panicked NilMapWrite).
Proof.
  intros Hw Hops. destruct w as [h n].
  assert (forall l, is_Some (h !! l) -> exists mo, h !! l = Some (obj mo)) as Hobj.
  { intros l [o Ho]. exists (members o). rewrite Ho. f_equal.
    apply obj_eta. by apply (Hw l). }
  assert (forall l mo n', forall l', is_Some (h !! l') ->
            is_Some (heap {| heap := <[l := obj mo]> h; ranges := n' |} !! l')) as Hkeep.
  { intros l mo n' l' Hl'. cbn. rewrite lookup_insert. by case_decide. }
  destruct m as [|s|s x|s x|s x|s|s|s other|s other|s other]; cbn [operands] in Hops;
    repeat match goal with
           | H : Forall _ (_ :: _) |- _ => apply Forall_cons in H as [? H]
           end.
  - left. destruct (NewSet_eq {| heap := h; ranges := n |}) as (r & Hnew & _).
    eexists _, _. split; [cbn [invoke]; by rewrite (bind_Returned _ _ _ _ _ Hnew)|].
    split; [eapply idle_insert, Hw|]. by apply Hkeep.
  - left. destruct (Hobj s) as [mo Hs]; [done|].
    destruct (Members_eq s (obj mo) {| heap := h; ranges := n |} Hs eq_refl)
      as (keys & Hm & _).
    eexists _, _. split; [cbn [invoke]; by rewrite (bind_Returned _ _ _ _ _ Hm)|].
    split; [eapply idle_ranges, Hw|done].
  - destruct (Hobj s) as [[m|] Hs]; [done| |].
    + left. eexists _, _. split.
      { cbn [invoke]. by rewrite (bind_Returned _ _ _ _ _ (Add_eq s x m {| heap := h; ranges := n |} Hs)). }
      split; [eapply idle_insert, Hw|]. by apply Hkeep.
    + right. exists s, x. split; [done|]. split; [done|].
      cbn [invoke]. unfold bind at 1. by rewrite (Add_nil_map s x {| heap := h; ranges := n |} Hs).
  - left. destruct (Hobj s) as [[m|] Hs]; [done| |].
    + eexists _, _. split.
      { cbn [invoke]. by rewrite (bind_Returned _ _ _ _ _ (Remove_eq s x m {| heap := h; ranges := n |} Hs)). }
      split; [eapply idle_insert, Hw|]. by apply Hkeep.
    + eexists _, _. split.
      { cbn [invoke]. by rewrite (bind_Returned _ _ _ _ _ (Remove_nil_map s x {| heap := h; ranges := n |} Hs)). }
      done.
  - left. destruct (Hobj s) as [mo Hs]; [done|].
    eexists _, _. split.
    { cbn [invoke]. by rewrite (bind_Returned _ _ _ _ _ (Contains_eq s x (obj mo) {| heap := h; ranges := n |} Hs eq_refl)). }
    done.
  - left. destruct (Hobj s) as [mo Hs]; [done|].
    eexists _, _. split.
    { cbn [invoke]. by rewrite (bind_Returned _ _ _ _ _ (Size_eq s (obj mo) {| heap := h; ranges := n |} Hs eq_refl)). }
    done.
  - left. destruct (Hobj s) as [mo Hs]; [done|].
    eexists _, _. split.
    { cbn [invoke]. by rewrite (bind_Returned _ _ _ _ _ (Clear_eq s mo {| heap := h; ranges := n |} Hs)). }
    split; [eapply idle_insert, Hw|]. by apply Hkeep.
  - left. destruct (Hobj s) as [ma Hs]; [done|]. destruct (Hobj other) as [mb Ho]; [done|].
    destruct (Intersect_eq s other (obj ma) (obj mb) {| heap := h; ranges := n |} Hs Ho eq_refl eq_refl)
      as (r & keys & Hi & _).
    eexists _, _. split; [cbn [invoke]; by rewrite (bind_Returned _ _ _ _ _ Hi)|].
    split; [eapply idle_insert, Hw|]. by apply Hkeep.
  - left. destruct (Hobj s) as [ma Hs]; [done|]. destruct (Hobj other) as [mb Ho]; [done|].
    destruct (Union_eq s other (obj ma) (obj mb) {| heap := h; ranges := n |} Hs Ho eq_refl eq_refl)
      as (r & keys & keys' & Hu & _).
    eexists _, _. split; [cbn [invoke]; by rewrite (bind_Returned _ _ _ _ _ Hu)|].
    split; [eapply idle_insert, Hw|]. by apply Hkeep.
  - left. destruct (Hobj s) as [ma Hs]; [done|]. destruct (Hobj other) as [mb Ho]; [done|].
    destruct (Difference_eq s other (obj ma) (obj mb) {| heap := h; ranges := n |} Hs Ho eq_refl eq_refl)
      as (r & keys & Hd & _).
    eexists _, _. split; [cbn [invoke]; by rewrite (bind_Returned _ _ _ _ _ Hd)|].
    split; [eapply idle_insert, Hw|]. by apply Hkeep.
Qed.

End set.

Arguments Set_ T {_ _}.
Arguments world T {_ _}.
Arguments op : clear implicits.
Arguments method : clear implicits.
Arguments result : clear implicits.

Local Notation "x <- m ;; k" := (bind m (fun x => k))
  (at level 100, m at next level, right associativity).
Local Notation "m ;; k" := (bind m (fun _ => k))
  (at level 100, right associativity).

(** *** The package at [Set[int]], as in its tests *)

Module int.
(** One order of visit among all. *)
Definition map_iteration (n k : nat) : nat := n + k.
Definition of_list (l : list nat) : Set_ nat :=
    {| members := Some (list_to_map ((fun k => (k, tt)) <$> l)); mu := unlocked |}.
(** Two sets on the heap: {1, 2, 3} at 1 and {2, 3, 4} at 2. *)
Definition s1 : loc := 1%positive.
Definition s2 : loc := 2%positive.
Definition two_sets : world nat :=
    {| heap := <[s2 := of_list [2; 3; 4]]> (<[s1 := of_list [1; 2; 3]]> ∅);
       ranges := 0 |}.
Definition Intersect := @Intersect nat _ _ map_iteration.
Definition Union := @Union nat _ _ map_iteration.
Definition Difference := @Difference nat _ _ map_iteration.
Definition Members := @Members nat _ _ map_iteration.
Definition partition_sizes := @partition_sizes nat _ _ map_iteration.
End int.

(** The scenario of the package's test of [Add], [Remove] and [Size]. *)
Example test_Set_AddRemoveSize :
  exists w,
    (s <- NewSet ;;
     n0 <- Size s ;;
     Add s 1 ;; n1 <- Size s ;;
     Add s 2 ;; n2 <- Size s ;;
     Add s 1 ;; n3 <- Size s ;; c3 <- Contains s 1 ;;
     Remove s 1 ;; n4 <- Size s ;; c4 <- Contains s 1 ;;
     ret (n0, n1, n2, n3, c3, n4, c4)) (start (T := nat)) =
    Returned ((0, 1, 2, 2, true, 1, false), w).
Proof. eexists. vm_compute. reflexivity. Qed.

(** The scenario of the package's tests of the set algebra: how many
    members the three results have, and which. *)
Example test_Intersect_Union_Difference :
  exists w,
    (i <- int.Intersect int.s1 int.s2 ;;
     u <- int.Union int.s1 int.s2 ;;
     d <- int.Difference int.s1 int.s2 ;;
     mi <- int.Members i ;;
     mu <- int.Members u ;;
     md <- int.Members d ;;
     ret (length mi, list_to_set mi : gset nat,
          length mu, list_to_set mu : gset nat,
          length md, list_to_set md : gset nat))
      int.two_sets =
    Returned ((2, {[2; 3]}, 4, {[1; 2; 3; 4]}, 1, {[1]}), w).
Proof. eexists. vm_compute. reflexivity. Qed.

(** C2, as the specification states it, fails when an element is added again
    after it was removed: one distinct element added, one removed, and a set
    of size one. *)
Lemma Size_after_adding_again :
  ~ Size_is_distinct_added_minus_removed (T := nat) start
      [OpAdd 1; OpRemove 1; OpAdd 1].
Proof.
  intros Hc.
  specialize (Hc 1%positive
                 {| heap := {[1%positive := int.of_list []]}; ranges := 0 |}
                 ({[1]}, {[1]})
                 {| heap := {[1%positive := int.of_list [1]]}; ranges := 0 |}
                 1).
  assert (1 = size (fst (({[1]}, {[1]}) : gset nat * gset nat))
              - size (snd (({[1]}, {[1]}) : gset nat * gset nat))) as Habs.
  { apply Hc; vm_compute; reflexivity. }
  vm_compute in Habs. discriminate Habs.
Qed.

Lemma Intersect_Difference_partition_witness :
  exists ni nd na w',
    int.partition_sizes int.s1 int.s2 int.two_sets = Returned ((ni, nd, na), w') /\
    ni + nd = na.
Proof.
  apply (Intersect_Difference_partition int.map_iteration int.s1 int.s2
           (int.of_list [1; 2; 3]) (int.of_list [2; 3; 4]) int.two_sets);
    reflexivity.
Defined.

Example partition_sizes_of_two_sets :
  exists w', int.partition_sizes int.s1 int.s2 int.two_sets = Returned ((2, 1, 3), w').
Proof. eexists. vm_compute. reflexivity. Qed.

Lemma set_algebra_returns_new_Set_witness :
  returns_new_Set (int.Intersect int.s1 int.s2) int.s1 int.s2 int.two_sets /\
  returns_new_Set (int.Union int.s1 int.s2) int.s1 int.s2 int.two_sets /\
  returns_new_Set (int.Difference int.s1 int.s2) int.s1 int.s2 int.two_sets.
Proof.
  apply (set_algebra_returns_new_Set int.map_iteration int.s1 int.s2
           (int.of_list [1; 2; 3]) (int.of_list [2; 3; 4]) int.two_sets);
    reflexivity.
Defined.

(** The zero value is not usable: [Add] on it panics, while the methods
    that only read its nil map return. *)
Example Add_to_zero_value :
  (s <- new_Set ;; Add s 1) (start (T := nat)) = Panicked NilMapWrite /\
  exists w, (s <- new_Set ;; Remove s 1 ;; n <- Size s ;; c <- Contains s 1 ;;
             ret (n, c)) (start (T := nat)) = Returned ((0, false), w).
Proof. split; [|eexists]; vm_compute; reflexivity. Qed.

(** The same with one set passed twice. *)
Example Intersect_with_itself :
  exists w',
    (i <- int.Intersect int.s1 int.s1 ;; mi <- int.Members i ;;
     ret (list_to_set mi : gset nat)) int.two_sets = Returned ({[1; 2; 3]}, w') /\
    heap w' !! int.s1 = heap int.two_sets !! int.s1.
Proof. eexists. vm_compute. split; reflexivity. Qed.

(** *** The further properties at [Set[int]] *)

Lemma Add_puts_one_element_in_witness :
  exists w' b n,
    Add int.s1 5 int.two_sets = Returned (tt, w') /\
    Contains int.s1 5 int.two_sets = Returned (b, int.two_sets) /\
    Size int.s1 int.two_sets = Returned (n, int.two_sets) /\
    Contains int.s1 5 w' = Returned (true, w') /\
    Size int.s1 w' = Returned (if b then n else S n, w') /\
    (b = true -> w' = int.two_sets) /\
    (forall y, y <> 5 ->
       exists c, Contains int.s1 y int.two_sets = Returned (c, int.two_sets) /\
                 Contains int.s1 y w' = Returned (c, w')) /\
    (forall l, l <> int.s1 -> heap w' !! l = heap int.two_sets !! l).
Proof.
  apply (Add_puts_one_element_in int.s1 5
           (list_to_map ((fun k => (k, tt)) <$> [1; 2; 3])) int.two_sets).
  reflexivity.
Defined.

Lemma Remove_takes_one_element_out_witness :
  exists w' b n,
    Remove int.s1 2 int.two_sets = Returned (tt, w') /\
    Contains int.s1 2 int.two_sets = Returned (b, int.two_sets) /\
    Size int.s1 int.two_sets = Returned (n, int.two_sets) /\
    Contains int.s1 2 w' = Returned (false, w') /\
    Size int.s1 w' = Returned (if b then pred n else n, w') /\
    (b = false -> w' = int.two_sets) /\
    (forall y, y <> 2 ->
       exists c, Contains int.s1 y int.two_sets = Returned (c, int.two_sets) /\
                 Contains int.s1 y w' = Returned (c, w')) /\
    (forall l, l <> int.s1 -> heap w' !! l = heap int.two_sets !! l).
Proof.
  apply (Remove_takes_one_element_out int.s1 2
           (Some (list_to_map ((fun k => (k, tt)) <$> [1; 2; 3]))) int.two_sets).
  reflexivity.
Defined.

Lemma Members_lists_each_member_once_witness :
  exists keys w',
    int.Members int.s1 int.two_sets = Returned (keys, w') /\
    heap w' = heap int.two_sets /\
    NoDup keys /\
    Size int.s1 int.two_sets = Returned (length keys, int.two_sets) /\
    (forall x, Contains int.s1 x int.two_sets =
               Returned (bool_decide (x ∈ keys), int.two_sets)).
Proof.
  apply (Members_lists_each_member_once int.map_iteration int.s1
           (int.of_list [1; 2; 3]) int.two_sets); reflexivity.
Defined.

Lemma Clear_empties_the_set_witness :
  exists w',
    Clear int.s1 int.two_sets = Returned (tt, w') /\
    Size int.s1 w' = Returned (0, w') /\
    (forall x, Contains int.s1 x w' = Returned (false, w')) /\
    (forall x, exists w'',
        Add int.s1 x w' = Returned (tt, w'') /\ Contains int.s1 x w'' = Returned (true, w'')) /\
    (forall l, l <> int.s1 -> heap w' !! l = heap int.two_sets !! l).
Proof.
  apply (Clear_empties_the_set int.s1
           (Some (list_to_map ((fun k => (k, tt)) <$> [1; 2; 3]))) int.two_sets).
  reflexivity.
Defined.

Lemma Intersect_holds_the_common_members_witness :
  exists r w',
    int.Intersect int.s1 int.s2 int.two_sets = Returned (r, w') /\
    forall x, exists ca cb,
      Contains int.s1 x int.two_sets = Returned (ca, int.two_sets) /\
      Contains int.s2 x int.two_sets = Returned (cb, int.two_sets) /\
      Contains r x w' = Returned (ca && cb, w').
Proof.
  apply (Intersect_holds_the_common_members int.map_iteration int.s1 int.s2
           (int.of_list [1; 2; 3]) (int.of_list [2; 3; 4]) int.two_sets);
    reflexivity.
Defined.

Lemma Union_holds_the_members_of_both_witness :
  exists r w',
    int.Union int.s1 int.s2 int.two_sets = Returned (r, w') /\
    forall x, exists ca cb,
      Contains int.s1 x int.two_sets = Returned (ca, int.two_sets) /\
      Contains int.s2 x int.two_sets = Returned (cb, int.two_sets) /\
      Contains r x w' = Returned (ca || cb, w').
Proof.
  apply (Union_holds_the_members_of_both int.map_iteration int.s1 int.s2
           (int.of_list [1; 2; 3]) (int.of_list [2; 3; 4]) int.two_sets);
    reflexivity.
Defined.

Lemma Difference_holds_the_members_of_the_receiver_only_witness :
  exists r w',
    int.Difference int.s1 int.s1 int.two_sets = Returned (r, w') /\
    forall x, exists ca cb,
      Contains int.s1 x int.two_sets = Returned (ca, int.two_sets) /\
      Contains int.s1 x int.two_sets = Returned (cb, int.two_sets) /\
      Contains r x w' = Returned (ca && negb cb, w').
Proof.
  apply (Difference_holds_the_members_of_the_receiver_only int.map_iteration int.s1 int.s1
           (int.of_list [1; 2; 3]) (int.of_list [1; 2; 3]) int.two_sets);
    reflexivity.
Defined.

Lemma Union_Intersect_sizes_witness :
  exists nu ni na nb w',
    union_sizes int.map_iteration int.s1 int.s2 int.two_sets =
    Returned ((nu, ni, na, nb), w') /\
    nu + ni = na + nb.
Proof.
  apply (Union_Intersect_sizes int.map_iteration int.s1 int.s2
           (int.of_list [1; 2; 3]) (int.of_list [2; 3; 4]) int.two_sets);
    reflexivity.
Defined.

Example union_sizes_of_two_sets :
  exists w',
    union_sizes int.map_iteration int.s1 int.s2 int.two_sets = Returned ((4, 2, 3, 3), w').
Proof. eexists. vm_compute. reflexivity. Qed.

Lemma two_sets_idle : idle int.two_sets.
Proof.
  intros l o. unfold int.two_sets. cbn.
  rewrite !lookup_insert, lookup_empty. repeat case_decide; by intros [= <-].
Qed.

Lemma calls_leave_no_lock_held_witness :
  (exists r w',
      invoke int.map_iteration (MIntersect int.s1 int.s1) int.two_sets = Returned (r, w') /\
      idle w' /\
      forall l, is_Some (heap int.two_sets !! l) -> is_Some (heap w' !! l)) \/
  (exists s (x : nat),
      MIntersect int.s1 int.s1 = MAdd s x /\
      heap int.two_sets !! s = Some {| members := None; mu := unlocked |} /\
      invoke int.map_iteration (MIntersect int.s1 int.s1) int.two_sets =
      Panicked NilMapWrite).
Proof.
  apply (calls_leave_no_lock_held int.map_iteration (MIntersect int.s1 int.s1) int.two_sets).
  - exact two_sets_idle.
  - repeat constructor; by eexists.
Defined.

End set.

(** ** The two packages together *)

Module library.

Section library.

(** The element type of the queue, with what the queue needs of it. *)
Context {Q : Type}.
Variable zero : Q.
Variable reflect_Comparable : Q -> bool.
Variable type_name : string.
Variable growslice_extra : nat -> nat -> nat.

(** The element type of the set. *)
Context {S : Type} `{Countable S}.
Variable map_iteration : nat -> nat -> nat.

(** What a call of an exported function of either package hands back. *)
Inductive returned : Type :=
| FromQueue (r : queue.retval Q)
| FromSet (r : set.result S).


(** The methods at these element types. *)
Definition PreventDuplicates := queue.PreventDuplicates zero reflect_Comparable type_name.
Definition Enqueue := @queue.Enqueue Q growslice_extra.
Definition call := queue.call zero reflect_Comparable type_name growslice_extra.
Definition invoke := @set.invoke S _ _ map_iteration.


End library.


End library.

(** ** The queue of the package's test with element type [any]

    The check of [PreventDuplicates] is [reflect.ValueOf(t).Comparable()] of
    Go's standard library, on the zero value [t] of the element type.  The
    library is not part of the repository; it is modelled here by its
    documentation, for the values an [any] can hold. *)

Module reflect.

(** What a variable of type [any] can hold: nil, or a value of some type,
    of which these kinds are modelled.  The fields of a struct and the
    elements of a slice are held the same way. *)
Inductive value : Type :=
| Nil
| Bool (b : bool)
| Int (n : Z)
| String (s : string)
| Slice (elems : list value)
| Map (entries : list (value * value))
| Func
| Struct (fields : list value).

(** [reflect.ValueOf(v).Comparable()].  [reflect.ValueOf(nil)] is the zero
    [Value], of kind [Invalid], which is reported comparable, as is a nil
    interface in a field; slices, maps and funcs are not comparable; a struct
    is when all its fields are; every other kind is. *)
Fixpoint Comparable (v : value) : bool :=
  match v with
  | Nil => true
  | Bool _ | Int _ | String _ => true
  | Slice _ | Map _ | Func => false
  | Struct fields => forallb Comparable fields
  end.

End reflect.

Module queue_any.

Import queue.

(** [var t any]: the nil interface; [%T] prints it as [<nil>]. *)
Definition zero : reflect.value := reflect.Nil.
Definition type_name : string := "<nil>".
Definition growslice_extra (_ _ : nat) : nat := 0.

Definition PreventDuplicates :=
  queue.PreventDuplicates zero reflect.Comparable type_name.
Definition calls := queue.calls zero reflect.Comparable type_name growslice_extra.

(** The func of the package's test: [func(a, b any) bool { return false }]. *)
Definition never_equal (a b : reflect.value) : bool := false.

(** A value of type [any] that cannot be compared: [[]int{1}]. *)
Definition a_slice : reflect.value := reflect.Slice [reflect.Int 1].

(** C3 as the specification states it, at this element type: an error,
    exactly when not every value of the type can be compared. *)
Definition error_iff_not_comparable : Prop :=
  forall f q,
    (exists e, snd (PreventDuplicates f q) = Returned (Some e, q)) <->
    ~ (forall v, reflect.Comparable v = true).

(** C3, where the code fails it: at the element type [any] of the package's
    own test.  Not every value of the type can be compared, a slice in it
    cannot; the test asks for an error.  But the check looks at the zero
    value only, the nil interface, which [reflect] reports comparable: so
    [PreventDuplicates] returns nil and switches duplicate suppression on, on
    every queue and for every func, and the queue then takes values that
    cannot be compared and hands them to the func. *)
Theorem PreventDuplicates_returns_no_error_for_any :
  ~ (forall v, reflect.Comparable v = true) /\
  (forall f q,
      PreventDuplicates f q =
      ([EvComparable reflect.Nil],
       Returned (None, set_equalsFunc f (set_preventDuplicates true q)))) /\
  ~ error_iff_not_comparable /\
  calls [OpPreventDuplicates (Some never_equal); OpEnqueue a_slice; OpEnqueue a_slice;
         OpLength] NewQueue =
  ([EvComparable reflect.Nil; EvEquals a_slice a_slice],
   Returned ([RetError None; RetNone; RetNone; RetInt 2],
             {| elements := view [] [a_slice; a_slice] 0;
                preventDuplicates := true;
                equalsFunc := Some never_equal |})).
Proof.
  assert (~ (forall v, reflect.Comparable v = true)) as Hnot.
  { intros Hall. specialize (Hall a_slice). discriminate Hall. }
  assert (forall f q,
             PreventDuplicates f q =
             ([EvComparable reflect.Nil],
              Returned (None, set_equalsFunc f (set_preventDuplicates true q)))) as Hnil.
  { intros f q. unfold PreventDuplicates. by rewrite PreventDuplicates_eq. }
  split; [exact Hnot|]. split; [exact Hnil|]. split; [|reflexivity].
  intros Hclaim.
  destruct (proj2 (Hclaim None NewQueue) Hnot) as [e He].
  rewrite Hnil in He. discriminate He.
Qed.

End queue_any.
